(** * Petango sync: reconciliation, query and orchestration of run.py

    A shallow embedding of the synchronisation engine of [run.py]:
    [fetch_animals], [sync_database], [fetch_filtered_pets_from_db],
    [update_google_sheet] and the orchestration methods of [PetSyncGUI].

    Conventions.
    - Python [str] values are the byte strings of their UTF-8 encoding
      ([string]), which is what SQLite stores and compares; a value that
      may be [None] is an [option string].
    - The table [pets] has [id TEXT PRIMARY KEY]: it is a finite map from
      ids to rows ([gmap string pet]).
    - Everything outside the process (the Petango web service, the wall
      clock, the Google Sheets API) is a field of [World]; the functions of
      the program are computations in the monad [M], which threads the
      world and propagates Python exceptions.
    - SQLite raises in two places. The transaction of [sync_database]
      ends as its argument [transaction] says; [sync_database] itself is
      the run whose transaction commits. The SELECT of
      [fetch_filtered_pets_from_db] raises when its LIKE pattern is longer
      than SQLite allows. The handlers are where the code has them.
    - The window is the record [Gui]: the flag [sync_running], the four
      buttons, the scheduler job and the number of live worker threads. *)

From Stdlib Require Import String Ascii ZArith List Permutation.
From Stdlib Require Import Sorting.Sorted.
From stdpp Require Import base option list gmap strings fin_maps sorting.

Local Open Scope string_scope.
Local Open Scope Z_scope.

(** ** Data model *)

(** [datetime] values, as seconds since the epoch. *)
Definition timestamp := Z.

(** Python truthiness of an optional string: [None] and [''] are falsy. *)
Definition truthy (o : option string) : bool :=
  match o with
  | Some s => negb (String.eqb s "")
  | None => false
  end.

(** What [get_text_from_class] finds in one [div.list-item] of the Petango
    page. [item_species] is the outcome of the species look-up with its
    fall-backs; [item_photo_src] is the [src] of the photo block's [img]. *)
Record list_item := {
  item_id : option string;
  item_name : option string;
  item_species : option string;
  item_breed : option string;
  item_sexSN : option string;
  item_age : option string;
  item_hidden : option string;
  item_detail : option string;
  item_photo_src : option string
}.

(** An item of the page: either its fields, or an item whose parsing raises
    (caught by the [except Exception] inside the loop of [fetch_animals]). *)
Inductive soup_item :=
| ItemError
| Item (i : list_item).

(** Outcome of [requests.get(PETANGO_URL, timeout=30)] followed by
    [raise_for_status]. *)
Inductive http_response :=
| Timeout
| RequestException
| Page (items : list soup_item).

(** The dictionaries built by [fetch_animals]. *)
Record animal := {
  a_id : option string;
  a_name : option string;
  a_species : option string;
  a_breed : option string;
  a_sexSN : option string;
  a_age : option string;
  a_location : option string;
  a_detail_id : option string;
  a_photo_url : option string
}.

(** A row of table [pets], without its key. [archived] is the INTEGER
    column holding 0 or 1. *)
Record pet := {
  name : option string;
  species : option string;
  breed : option string;
  sexSN : option string;
  age : option string;
  location : option string;
  detail_id : option string;
  photo_url : option string;
  last_seen : timestamp;
  archived : bool
}.

(** The counters of the log line "Local DB sync complete". *)
Record sync_counts := {
  inserted_count : nat;
  updated_count : nat;
  archived_count : nat
}.

(** Section [AppSettings] of settings.ini, as far as the engine uses it.
    ['N/A'] is [None]; a recorded time is [Some t]. *)
Record settings := {
  sync_archived_to_gsheet : bool;
  last_successful_sync_all : option timestamp;
  last_successful_gsheet_update : option timestamp
}.

(** A dictionary returned by [fetch_filtered_pets_from_db]: the columns
    [PetSyncGUI.COLUMNS]. *)
Record pet_dict := {
  d_id : string;
  d_name : option string;
  d_species : option string;
  d_breed : option string;
  d_sexSN : option string;
  d_age : option string;
  d_location : option string;
  d_detail_id : option string;
  d_photo_url : option string;
  d_archived : bool
}.

(** How far one call of the Google Sheets API sequence of
    [update_google_sheet] gets before gspread raises. *)
Inductive gsheet_outcome :=
| GsAuthFails      (* service_account: FileNotFoundError or other *)
| GsOpenFails      (* open_by_key: SpreadsheetNotFound, APIError *)
| GsClearFails     (* sh.clear() raises *)
| GsUpdateFails    (* sh.update raises, after the sheet was cleared *)
| GsFormatFails    (* sh.format raises, after the rows were written *)
| GsSucceeds.

(** ** The world and the monad *)

Record World := {
  remote : nat -> http_response;      (* answer to the k-th GET *)
  fetches : nat;                      (* GETs issued so far *)
  clock : nat -> timestamp;           (* k-th reading of the wall clock *)
  clock_reads : nat;
  db : gmap string pet;               (* table pets *)
  gsheet_api : nat -> gsheet_outcome; (* fate of the k-th sheet update *)
  gsheet_calls : nat;
  sheet : list (list (option string)); (* cells of sheet1 *)
  config : settings
}.

Definition set_fetches (n : nat) (w : World) : World :=
  {| remote := remote w; fetches := n; clock := clock w;
     clock_reads := clock_reads w; db := db w; gsheet_api := gsheet_api w;
     gsheet_calls := gsheet_calls w; sheet := sheet w; config := config w |}.

Definition set_clock_reads (n : nat) (w : World) : World :=
  {| remote := remote w; fetches := fetches w; clock := clock w;
     clock_reads := n; db := db w; gsheet_api := gsheet_api w;
     gsheet_calls := gsheet_calls w; sheet := sheet w; config := config w |}.

Definition set_db (d : gmap string pet) (w : World) : World :=
  {| remote := remote w; fetches := fetches w; clock := clock w;
     clock_reads := clock_reads w; db := d; gsheet_api := gsheet_api w;
     gsheet_calls := gsheet_calls w; sheet := sheet w; config := config w |}.

Definition set_gsheet_calls (n : nat) (w : World) : World :=
  {| remote := remote w; fetches := fetches w; clock := clock w;
     clock_reads := clock_reads w; db := db w; gsheet_api := gsheet_api w;
     gsheet_calls := n; sheet := sheet w; config := config w |}.

Definition set_sheet (s : list (list (option string))) (w : World) : World :=
  {| remote := remote w; fetches := fetches w; clock := clock w;
     clock_reads := clock_reads w; db := db w; gsheet_api := gsheet_api w;
     gsheet_calls := gsheet_calls w; sheet := s; config := config w |}.

Definition set_config (c : settings) (w : World) : World :=
  {| remote := remote w; fetches := fetches w; clock := clock w;
     clock_reads := clock_reads w; db := db w; gsheet_api := gsheet_api w;
     gsheet_calls := gsheet_calls w; sheet := sheet w; config := c |}.

(** Python exceptions that cross function boundaries in the engine. *)
Inductive exn :=
| ConnectionError (msg : string)
| Sqlite3Error
| OtherException.

Inductive result (A : Type) :=
| Ok (a : A)
| Raise (e : exn).
Arguments Ok {A} a.
Arguments Raise {A} e.

Definition M (A : Type) : Type := World -> result A * World.

Definition ret {A} (a : A) : M A := fun w => (Ok a, w).

Definition bind {A B} (m : M A) (k : A -> M B) : M B :=
  fun w =>
    match m w with
    | (Ok a, w') => k a w'
    | (Raise e, w') => (Raise e, w')
    end.

Definition raise {A} (e : exn) : M A := fun w => (Raise e, w).

(** [try: m except e: h e] *)
Definition try_except {A} (m : M A) (h : exn -> M A) : M A :=
  fun w =>
    match m w with
    | (Ok a, w') => (Ok a, w')
    | (Raise e, w') => h e w'
    end.

Definition gets {A} (f : World -> A) : M A := fun w => (Ok (f w), w).
Definition modify (f : World -> World) : M unit := fun w => (Ok tt, f w).

Declare Scope petsync_scope.
Delimit Scope petsync_scope with petsync.
Notation "x <- m ;; k" := (bind m (fun x => k))
  (at level 100, m at next level, right associativity) : petsync_scope.
Notation "m ;;; k" := (bind m (fun _ => k))
  (at level 100, right associativity) : petsync_scope.
Local Open Scope petsync_scope.

(** [datetime.now(...)]: one reading of the wall clock. *)
Definition now : M timestamp :=
  fun w => (Ok (clock w (clock_reads w)), set_clock_reads (S (clock_reads w)) w).

(** ** fetch_animals *)

(** The body of the loop over [soup.find_all('div', class_='list-item')]:
    items without a pet id are skipped, and so are items whose parsing
    raises. *)
Definition parse_item (it : soup_item) : option animal :=
  match it with
  | ItemError => None
  | Item i =>
      if negb (truthy (item_id i)) then None
      else Some {| a_id := item_id i;
                   a_name := item_name i;
                   a_species := item_species i;
                   a_breed := item_breed i;
                   a_sexSN := item_sexSN i;
                   a_age := item_age i;
                   a_location := item_hidden i;
                   a_detail_id := item_detail i;
                   a_photo_url := if truthy (item_photo_src i)
                                  then item_photo_src i else None |}
  end.

Definition parse_response (r : http_response) : list animal :=
  match r with
  | Timeout => []
  | RequestException => []
  | Page items => omap parse_item items
  end.

Definition fetch_animals : M (list animal) :=
  fun w =>
    (Ok (parse_response (remote w (fetches w))),
     set_fetches (S (fetches w)) w).

(** ** sync_database *)

(** [not animals_fetched] *)
Definition is_empty {A} (l : list A) : bool :=
  match l with
  | [] => true
  | _ :: _ => false
  end.

(** [a['id']] when [a.get('id')] is truthy. *)
Definition valid_id (a : animal) : option string :=
  if truthy (a_id a) then a_id a else None.

(** The tuple [pet_details], as the row written by UPDATE (with
    [archived = 0]) and by INSERT (with [0] for archived). *)
Definition pet_row (sync_time : timestamp) (a : animal) : pet :=
  {| name := a_name a; species := a_species a; breed := a_breed a;
     sexSN := a_sexSN a; age := a_age a; location := a_location a;
     detail_id := a_detail_id a; photo_url := a_photo_url a;
     last_seen := sync_time; archived := false |}.

(** [active_ids = {a['id'] for a in animals_fetched if a.get('id')}] *)
Definition active_ids (animals_fetched : list animal) : gset string :=
  list_to_set (omap valid_id animals_fetched).

(** One iteration of [for a in animals_fetched]; the accumulator is the
    table with [updated_count] and [inserted_count]. *)
Definition upsert (sync_time : timestamp)
    (acc : gmap string pet * nat * nat) (a : animal)
    : gmap string pet * nat * nat :=
  let '(pets, updated, inserted) := acc in
  match valid_id a with
  | None => acc                                   (* continue *)
  | Some i =>
      match pets !! i with
      | Some _ =>                                 (* exists: UPDATE, rowcount 1 *)
          (<[i := pet_row sync_time a]> pets, S updated, inserted)
      | None =>                                   (* INSERT, rowcount 1 *)
          (<[i := pet_row sync_time a]> pets, updated, S inserted)
      end
  end.

(** The WHERE clause of [archive_sql]. *)
Definition to_archive (active : gset string) (i : string) (p : pet) : bool :=
  bool_decide (i ∉ active) && negb (archived p).

Definition archive_pet (sync_time : timestamp) (p : pet) : pet :=
  {| name := name p; species := species p; breed := breed p;
     sexSN := sexSN p; age := age p; location := location p;
     detail_id := detail_id p; photo_url := photo_url p;
     last_seen := sync_time; archived := true |}.

(** [UPDATE pets SET archived = 1, last_seen = ? WHERE id NOT IN (...)
    AND archived = 0], with its [rowcount]. *)
Definition archive_missing (sync_time : timestamp) (active : gset string)
    (pets : gmap string pet) : gmap string pet * nat :=
  (map_imap (fun i p => Some (if to_archive active i p
                              then archive_pet sync_time p else p)) pets,
   size (filter (fun ip => to_archive active ip.1 ip.2 = true) pets)).

(** The transaction of [sync_database] (the [with sqlite3.connect] block). *)
Definition reconcile (sync_time : timestamp) (animals_fetched : list animal)
    (pets : gmap string pet) : gmap string pet * sync_counts :=
  let '(pets1, updated, inserted) :=
    foldl (upsert sync_time) (pets, 0%nat, 0%nat) animals_fetched in
  let active := active_ids animals_fetched in
  let '(pets2, archived_n) :=
    if bool_decide (active ≠ ∅)
    then archive_missing sync_time active pets1
    else (pets1, 0%nat) in
  (pets2, {| inserted_count := inserted; updated_count := updated;
             archived_count := archived_n |}).

Definition no_data : exn :=
  ConnectionError "Failed to fetch animal data from Petango after retry.".

(** How the block [with sqlite3.connect(DB_PATH) as conn] ends: it
    reaches [conn.commit()], or SQLite raises inside it, or something else
    does. The connection rolls back what an unfinished block has written,
    and both handlers of [sync_database] raise the exception again. *)
Inductive transaction := Commits | RaisesSqlite3Error | RaisesException.

Definition sync_database_with (tx : transaction) : M sync_counts :=
  sync_time <- now ;;
  animals_fetched <- fetch_animals ;;
  animals_fetched <- (if is_empty animals_fetched then fetch_animals
                      else ret animals_fetched) ;;
  if is_empty animals_fetched then raise no_data
  else
    match tx with
    | Commits =>
        pets <- gets db ;;
        let '(pets', counts) := reconcile sync_time animals_fetched pets in
        modify (set_db pets') ;;;
        ret counts
    | RaisesSqlite3Error => raise Sqlite3Error
    | RaisesException => raise OtherException
    end.

(** [sync_database] with a database that can be written. *)
Definition sync_database : M sync_counts := sync_database_with Commits.

(** ** fetch_filtered_pets_from_db *)

(** SQLite's [LOWER]: only the ASCII letters are folded. *)
Definition lower_ascii (c : ascii) : ascii :=
  let n := N_of_ascii c in
  if ((65 <=? n) && (n <=? 90))%N then ascii_of_N (n + 32) else c.

Fixpoint lower (s : string) : string :=
  match s with
  | EmptyString => EmptyString
  | String c s' => String (lower_ascii c) (lower s')
  end.

(** SQLite's [LIKE] reads both texts character by character, as
    NUL-terminated UTF-8 ([sqlite3Utf8Read]). A byte below 0xC0 is a
    character by itself. A byte from 0xC0 on starts a character that
    takes every continuation byte (10xxxxxx) after it: its value starts
    from the table [sqlite3Utf8Trans1], gains six bits per continuation
    byte in 32-bit arithmetic, and is replaced by U+FFFD when it is below
    0x80, a surrogate, or 0xFFFE or 0xFFFF. *)
Definition sqlite3Utf8Trans1 (b : N) : N :=
  (if b <? 224 then N.land b 31
   else if b <? 240 then N.land b 15
   else if b <? 248 then N.land b 7
   else if b <? 252 then N.land b 3
   else if b <? 254 then N.land b 1
   else 0)%N.

Definition is_continuation (b : N) : bool := (N.land b 192 =? 128)%N.

Definition utf8_push (c b : N) : N := ((c * 64 + N.land b 63) mod 2 ^ 32)%N.

Definition utf8_fixup (c : N) : N :=
  (if (c <? 128) || (N.land c 4294965248 =? 55296)
      || (N.land c 4294967294 =? 65534)
   then 65533 else c)%N.

(** The character being read, if any, ends here. *)
Definition utf8_flush (pending : option N) : list N :=
  match pending with
  | Some c => [utf8_fixup c]
  | None => []
  end.

(** The characters of [s] up to its first NUL byte; [pending] is the value
    of the multi-byte character being read. *)
Fixpoint utf8_chars_from (pending : option N) (s : string) : list N :=
  match s with
  | EmptyString => utf8_flush pending
  | String a s' =>
      let b := N_of_ascii a in
      match pending with
      | Some c =>
          if is_continuation b then utf8_chars_from (Some (utf8_push c b)) s'
          else
            utf8_fixup c ::
            (if (b =? 0)%N then []
             else if (192 <=? b)%N
                  then utf8_chars_from (Some (sqlite3Utf8Trans1 b)) s'
                  else b :: utf8_chars_from None s')
      | None =>
          if (b =? 0)%N then []
          else if (192 <=? b)%N
               then utf8_chars_from (Some (sqlite3Utf8Trans1 b)) s'
               else b :: utf8_chars_from None s'
      end
  end.

Definition utf8_chars (s : string) : list N := utf8_chars_from None s.

Definition sqlite3Tolower (c : N) : N :=
  (if (65 <=? c) && (c <=? 90) then c + 32 else c)%N.

(** Two characters other than the wildcards match when they are equal, or
    when both are ASCII and equal up to case. *)
Definition char_match (c c2 : N) : bool :=
  ((c =? c2)
   || ((sqlite3Tolower c =? sqlite3Tolower c2) && (c <? 128) && (c2 <? 128)))%N.

(** [patternCompare] for [LIKE] without [ESCAPE]: [%] (37) matches any
    sequence of characters, [_] (95) any one character. *)
Fixpoint patternCompare (pattern : list N) : list N -> bool :=
  match pattern with
  | [] => fun s => is_empty s
  | c :: pattern' =>
      if (c =? 37)%N then
        fix any (s : list N) : bool :=
          patternCompare pattern' s
          || match s with
             | [] => false
             | _ :: s' => any s'
             end
      else if (c =? 95)%N then
        fun s => match s with
                 | [] => false
                 | _ :: s' => patternCompare pattern' s'
                 end
      else
        fun s => match s with
                 | [] => false
                 | c2 :: s' => char_match c c2 && patternCompare pattern' s'
                 end
  end.

Definition like (pattern s : string) : bool :=
  patternCompare (utf8_chars pattern) (utf8_chars s).

(** [likeFunc] refuses a pattern of more than
    SQLITE_MAX_LIKE_PATTERN_LENGTH bytes, NULL column or not: the
    statement fails with "LIKE or GLOB pattern too complex". *)
Definition SQLITE_MAX_LIKE_PATTERN_LENGTH : N := 50000.

Definition like_pattern_too_complex (search_like : string) : bool :=
  (SQLITE_MAX_LIKE_PATTERN_LENGTH <? N.of_nat (String.length search_like))%N.

(** [LOWER(col) LIKE LOWER(?)]; a NULL column makes the comparison NULL,
    which never selects the row. *)
Definition lower_like (col : option string) (param : string) : bool :=
  match col with
  | Some s => like (lower param) (lower s)
  | None => false
  end.

(** [LOWER(col) = LOWER(?)] *)
Definition lower_eq (col : option string) (param : string) : bool :=
  match col with
  | Some s => String.eqb (lower s) (lower param)
  | None => false
  end.

(** The conjunction of the [conditions] that the function collects. *)
Definition where_clause (search_term species_filter sex_filter archived_filter : string)
    (i : string) (p : pet) : bool :=
  (if negb (String.eqb search_term "") then
     let search_like := "%" ++ search_term ++ "%" in
     lower_like (Some i) search_like || lower_like (name p) search_like
     || lower_like (species p) search_like || lower_like (breed p) search_like
   else true)
  && (if negb (String.eqb species_filter "All") && negb (String.eqb species_filter "")
      then lower_eq (species p) species_filter else true)
  && (if negb (String.eqb sex_filter "All") && negb (String.eqb sex_filter "")
      then lower_eq (sexSN p) sex_filter else true)
  && (if String.eqb archived_filter "Active" then negb (archived p)
      else if String.eqb archived_filter "Archived" then archived p
      else true).

(** [SELECT id, name, ..., archived]: the columns of one row. *)
Definition select_columns (ip : string * pet) : pet_dict :=
  {| d_id := ip.1; d_name := name ip.2; d_species := species ip.2;
     d_breed := breed ip.2; d_sexSN := sexSN ip.2; d_age := age ip.2;
     d_location := location ip.2; d_detail_id := detail_id ip.2;
     d_photo_url := photo_url ip.2; d_archived := archived ip.2 |}.

(** Column [name] has the default BINARY collation: texts compare byte by
    byte, and NULL sorts before every text. *)
Definition name_leb (a b : option string) : bool :=
  match a, b with
  | None, _ => true
  | Some _, None => false
  | Some x, Some y => String.leb x y
  end.

(** [ORDER BY archived ASC, name ASC] *)
Definition order_leb (r1 r2 : pet_dict) : bool :=
  match d_archived r1, d_archived r2 with
  | false, true => true
  | true, false => false
  | _, _ => name_leb (d_name r1) (d_name r2)
  end.

Definition order_le (r1 r2 : pet_dict) : Prop := order_leb r1 r2 = true.

#[global] Instance order_le_dec : RelDecision order_le.
Proof. intros r1 r2. unfold order_le. apply _. Defined.

(** The rows that the SELECT statement returns on a table when SQLite
    accepts its search pattern. Rows with equal sort keys come in an
    order that SQL leaves open (SQLite takes them by rowid); here they
    keep the order in which the map enumerates them. *)
Definition select_pets (search_term species_filter sex_filter archived_filter : string)
    (pets : gmap string pet) : list pet_dict :=
  merge_sort order_le
    (select_columns <$>
       filter (fun ip => where_clause search_term species_filter sex_filter
                           archived_filter ip.1 ip.2 = true)
              (map_to_list pets)).

(** [cursor.execute(query, params)] followed by [fetchall]. The search
    condition comes first in the WHERE clause, so with a search pattern
    that is too long the statement fails on the first row of the table. *)
Definition execute_query
    (search_term species_filter sex_filter archived_filter : string)
    : M (list pet_dict) :=
  pets <- gets db ;;
  if negb (String.eqb search_term "")
     && like_pattern_too_complex ("%" ++ search_term ++ "%")
     && negb (is_empty (map_to_list pets))
  then raise Sqlite3Error
  else ret (select_pets search_term species_filter sex_filter archived_filter
              pets).

(** [pets = []] is returned as it is when the query raises
    [sqlite3.Error]; the error is logged only. *)
Definition fetch_filtered_pets_from_db
    (search_term species_filter sex_filter archived_filter : string)
    : M (list pet_dict) :=
  try_except
    (execute_query search_term species_filter sex_filter archived_filter)
    (fun e => match e with
              | Sqlite3Error => ret []
              | _ => raise e
              end).

(** ** update_google_sheet *)

Definition GOOGLE_SHEET_ID : string :=
  "1jO9GowDUU6GzSHA39zbR7beK3GgW9bAsY71LIftdCyM".

Definition headers : list (option string) :=
  [Some "ID"; Some "Name"; Some "Species"; Some "Breed"; Some "Sex/SN";
   Some "Age"; Some "Location"; Some "Detail ID"; Some "Photo URL";
   Some "Archived"].

Definition sheet_row (p : pet_dict) : list (option string) :=
  [Some (d_id p); d_name p; d_species p; d_breed p; d_sexSN p; d_age p;
   d_location p; d_detail_id p; d_photo_url p;
   Some (if d_archived p then "Yes" else "No")].

Definition rows_to_write (pets_data : list pet_dict) : list (list (option string)) :=
  headers :: (sheet_row <$> pets_data).

(** The [try] block: authenticate, open, [sh.clear()], [sh.update],
    [sh.format]; every exception is logged and turned into [False]. *)
Definition write_sheet (pets_data : list pet_dict) : M bool :=
  fun w =>
    let w1 := set_gsheet_calls (S (gsheet_calls w)) w in
    match gsheet_api w (gsheet_calls w) with
    | GsAuthFails => (Ok false, w1)
    | GsOpenFails => (Ok false, w1)
    | GsClearFails => (Ok false, w1)
    | GsUpdateFails => (Ok false, set_sheet [] w1)
    | GsFormatFails => (Ok false, set_sheet (rows_to_write pets_data) w1)
    | GsSucceeds => (Ok true, set_sheet (rows_to_write pets_data) w1)
    end.

Definition update_google_sheet (pets_data : list pet_dict) : M bool :=
  if String.eqb GOOGLE_SHEET_ID "" || String.eqb GOOGLE_SHEET_ID "your_sheet_id_here"
  then ret false
  else if is_empty pets_data then ret true
  else write_sheet pets_data.

(** ** PetSyncGUI: the full run *)

(** [self._save_app_setting(key, current_time_str)] for the two keys. *)
Definition save_last_successful_sync_all (t : timestamp) : M unit :=
  modify (fun w =>
    set_config {| sync_archived_to_gsheet := sync_archived_to_gsheet (config w);
                  last_successful_sync_all := Some t;
                  last_successful_gsheet_update :=
                    last_successful_gsheet_update (config w) |} w).

Definition save_last_successful_gsheet_update (t : timestamp) : M unit :=
  modify (fun w =>
    set_config {| sync_archived_to_gsheet := sync_archived_to_gsheet (config w);
                  last_successful_sync_all := last_successful_sync_all (config w);
                  last_successful_gsheet_update := Some t |} w).

(** The list handed to the sheet: everything, or the rows with a falsy
    [archived], by setting [sync_archived_to_gsheet]. *)
Definition pets_to_send_to_gsheet (include_archived : bool)
    (all_pets_from_db : list pet_dict) : list pet_dict :=
  if include_archived then all_pets_from_db
  else filter (fun p => d_archived p = false) all_pets_from_db.

(** The sheet block shared by [_perform_sync_and_update_all] and
    [_perform_gsheet_update_task]: query with [archived_filter="All"],
    apply the setting, push. Returns [any_pets_for_sheet] and
    [gsheet_update_ok]. *)
Definition gsheet_block : M (bool * bool) :=
  all_pets_from_db <- fetch_filtered_pets_from_db "" "All" "All" "All" ;;
  let any_pets_for_sheet := negb (is_empty all_pets_from_db) in
  if any_pets_for_sheet then
    include_archived <- gets (fun w => sync_archived_to_gsheet (config w)) ;;
    let pets := pets_to_send_to_gsheet include_archived all_pets_from_db in
    if negb (is_empty pets) then
      gsheet_update_ok <- update_google_sheet pets ;;
      ret (any_pets_for_sheet, gsheet_update_ok)
    else ret (any_pets_for_sheet, true)
  else ret (any_pets_for_sheet, true).

(** The callback that the run queues for [_update_status] with
    [master.after]. [Complete], [CompleteGsheetFailed],
    [FailedDbSyncError] and [UnexpectedFailure] carry a message that the
    worker has built ([status_msg], [err_msg]). The handlers of
    [ConnectionError] and [sqlite3.Error] queue a lambda that formats the
    handler's variable [e] only when the main loop calls it. *)
Inductive run_status :=
| Complete (at_time : timestamp)
| CompleteGsheetFailed (at_time : timestamp)
| FailedDbSyncError
| UnexpectedFailure
| FetchFailedLambda
| LocalDbFailedLambda.

Definition status_is_error (s : run_status) : bool :=
  match s with
  | Complete _ => false
  | _ => true
  end.

Definition reads_handler_variable (s : run_status) : bool :=
  match s with
  | FetchFailedLambda | LocalDbFailedLambda => true
  | _ => false
  end.

(** The main loop calls the queued callback. Python unbinds [e] when the
    [except ... as e] clause ends, so a lambda that reads [e] after that
    raises NameError and [_update_status] is not called; otherwise
    [_update_status] receives the status and its error flag. *)
Definition run_status_callback (handler_ended : bool) (s : run_status)
    : option (run_status * bool) :=
  if reads_handler_variable s && handler_ended then None
  else Some (s, status_is_error s).

Definition _perform_sync_and_update_all (tx : transaction) : M run_status :=
  current_time_str <- now ;;
  try_except
    (_ <- sync_database_with tx ;;
     let db_sync_ok := true in
     flags <- gsheet_block ;;
     let any_pets_for_sheet := flags.1 in
     let gsheet_update_ok := flags.2 in
     at_time <- now ;;
     let status_msg :=
       if negb db_sync_ok then FailedDbSyncError
       else if db_sync_ok && any_pets_for_sheet && negb gsheet_update_ok
            then CompleteGsheetFailed at_time
            else Complete at_time in
     (if db_sync_ok && gsheet_update_ok then
        save_last_successful_sync_all current_time_str ;;;
        save_last_successful_gsheet_update current_time_str
      else ret tt) ;;;
     ret status_msg)
    (fun e =>
       match e with
       | ConnectionError _ => ret FetchFailedLambda
       | Sqlite3Error => ret LocalDbFailedLambda
       | OtherException => ret UnexpectedFailure
       end).

(** ** PetSyncGUI: buttons, scheduler and worker threads *)

Inductive button_state := normal | disabled.

Record Gui := {
  sync_running : bool;
  btn_start_sync : button_state;
  btn_stop_sync : button_state;
  btn_manual_sync_all : button_state;
  btn_manual_gsheet_sync : button_state;
  pet_sync_job : bool;   (* the scheduler holds job 'pet_sync_job' *)
  threads : nat          (* worker threads started and not yet finished *)
}.

Definition update_button_states (operation_running : bool) (g : Gui) : Gui :=
  let is_auto_syncing := sync_running g in
  {| sync_running := sync_running g;
     btn_start_sync :=
       if is_auto_syncing || operation_running then disabled else normal;
     btn_stop_sync :=
       if is_auto_syncing && negb operation_running then normal else disabled;
     btn_manual_sync_all :=
       if is_auto_syncing || operation_running then disabled else normal;
     btn_manual_gsheet_sync :=
       if is_auto_syncing || operation_running then disabled else normal;
     pet_sync_job := pet_sync_job g;
     threads := threads g |}.

(** [threading.Thread(target=..., daemon=True).start()] *)
Definition start_thread (g : Gui) : Gui :=
  {| sync_running := sync_running g; btn_start_sync := btn_start_sync g;
     btn_stop_sync := btn_stop_sync g;
     btn_manual_sync_all := btn_manual_sync_all g;
     btn_manual_gsheet_sync := btn_manual_gsheet_sync g;
     pet_sync_job := pet_sync_job g; threads := S (threads g) |}.

Definition set_sync_running (b : bool) (g : Gui) : Gui :=
  {| sync_running := b; btn_start_sync := btn_start_sync g;
     btn_stop_sync := btn_stop_sync g;
     btn_manual_sync_all := btn_manual_sync_all g;
     btn_manual_gsheet_sync := btn_manual_gsheet_sync g;
     pet_sync_job := pet_sync_job g; threads := threads g |}.

Definition set_pet_sync_job (b : bool) (g : Gui) : Gui :=
  {| sync_running := sync_running g; btn_start_sync := btn_start_sync g;
     btn_stop_sync := btn_stop_sync g;
     btn_manual_sync_all := btn_manual_sync_all g;
     btn_manual_gsheet_sync := btn_manual_gsheet_sync g;
     pet_sync_job := b; threads := threads g |}.

Definition trigger_manual_sync_all (scheduled_job : bool) (g : Gui) : Gui :=
  start_thread (update_button_states true g).

Definition trigger_manual_gsheet_update (g : Gui) : Gui :=
  start_thread (update_button_states true g).

Definition _scheduled_sync_all_task (g : Gui) : Gui := start_thread g.

Definition start_auto_sync (g : Gui) : Gui :=
  if negb (sync_running g) then
    let g1 := set_sync_running true g in
    let g2 := update_button_states false g1 in
    let g3 := trigger_manual_sync_all true g2 in
    let g4 := set_pet_sync_job true g3 in
    update_button_states false g4                 (* finally *)
  else g.

Definition stop_auto_sync (g : Gui) : Gui :=
  if sync_running g then
    let g1 := set_pet_sync_job false g in
    let g2 := set_sync_running false g1 in
    update_button_states false g2                 (* finally *)
  else g.

(** A worker thread ends: its [finally] clause queues
    [update_button_states], which the main loop then runs. *)
Definition thread_finished (g : Gui) : Gui :=
  match threads g with
  | O => g
  | S n =>
      update_button_states false
        {| sync_running := sync_running g; btn_start_sync := btn_start_sync g;
           btn_stop_sync := btn_stop_sync g;
           btn_manual_sync_all := btn_manual_sync_all g;
           btn_manual_gsheet_sync := btn_manual_gsheet_sync g;
           pet_sync_job := pet_sync_job g; threads := n |}
  end.

(** The window after [__init__]. *)
Definition initial_gui : Gui :=
  update_button_states false
    {| sync_running := false; btn_start_sync := normal;
       btn_stop_sync := normal; btn_manual_sync_all := normal;
       btn_manual_gsheet_sync := normal; pet_sync_job := false;
       threads := O |}.

(** What the operator and the runtime can do to the window. A click on a
    disabled button does nothing. *)
Inductive gui_event :=
| ClickStartAutoSync
| ClickStopAutoSync
| ClickManualSyncAll
| ClickManualGsheetSync
| SchedulerFires
| ThreadFinishes.

Definition click (b : button_state) (command : Gui -> Gui) (g : Gui) : Gui :=
  match b with
  | normal => command g
  | disabled => g
  end.

Definition gui_step (g : Gui) (e : gui_event) : Gui :=
  match e with
  | ClickStartAutoSync => click (btn_start_sync g) start_auto_sync g
  | ClickStopAutoSync => click (btn_stop_sync g) stop_auto_sync g
  | ClickManualSyncAll =>
      click (btn_manual_sync_all g) (trigger_manual_sync_all false) g
  | ClickManualGsheetSync =>
      click (btn_manual_gsheet_sync g) trigger_manual_gsheet_update g
  | SchedulerFires =>
      if pet_sync_job g then _scheduled_sync_all_task g else g
  | ThreadFinishes => thread_finished g
  end.

Definition gui_run (events : list gui_event) : Gui :=
  foldl gui_step initial_gui events.

(** Events of a session in which automatic sync is never used. *)
Definition manual_event (e : gui_event) : bool :=
  match e with
  | ClickManualSyncAll | ClickManualGsheetSync | ThreadFinishes => true
  | _ => false
  end.

(** ** The snapshot a run works on *)

(** The list [animals_fetched] that [sync_database] ends up with: the
    first fetch, or the second one when the first is empty. *)
Definition snapshot_of (w : World) : list animal :=
  let first := parse_response (remote w (fetches w)) in
  if is_empty first then parse_response (remote w (S (fetches w))) else first.

(** Number of GETs that [sync_database] issues. *)
Definition attempts (w : World) : nat :=
  if is_empty (parse_response (remote w (fetches w))) then 2%nat else 1%nat.

(** The reading of the clock taken by [sync_database] started in [w]. *)
Definition sync_time_of (w : World) : timestamp := clock w (clock_reads w).

(** The world once [sync_database] has read the clock and fetched. *)
Definition after_fetch (w : World) : World :=
  set_fetches (fetches w + attempts w) (set_clock_reads (S (clock_reads w)) w).

(** [lastSeen] replaced, everything else kept. *)
Definition with_last_seen (t : timestamp) (p : pet) : pet :=
  {| name := name p; species := species p; breed := breed p;
     sexSN := sexSN p; age := age p; location := location p;
     detail_id := detail_id p; photo_url := photo_url p;
     last_seen := t; archived := archived p |}.

(** The effect of one loop iteration of [sync_database] on the table
    alone: UPDATE and INSERT write the same row. *)
Definition put_animal (sync_time : timestamp) (pets : gmap string pet)
    (a : animal) : gmap string pet :=
  match valid_id a with
  | Some i => <[i := pet_row sync_time a]> pets
  | None => pets
  end.

(** What the archival UPDATE does to a row whose id is not active. *)
Definition archive_if_active (sync_time : timestamp) (p : pet) : pet :=
  if archived p then p else archive_pet sync_time p.

(** A record with identifier [i] is listed in snapshot [S]. *)
Definition appears_in (i : string) (S : list animal) : Prop :=
  exists a, a ∈ S /\ a_id a = Some i.

(** The outcome of a run that did not raise. *)
Definition succeeded_with (r : result sync_counts) (c : sync_counts) : Prop :=
  r = Ok c.

(** Idempotence read literally, for two runs started in [w0] that fetch
    the same non-empty snapshot: the second run leaves the table as the
    first one left it, inserts nothing, and updates as many rows as the
    first run inserted or updated. *)
Definition idempotent_at (w0 : World) : Prop :=
  let w1 := (sync_database w0).2 in
  let w2 := (sync_database w1).2 in
  snapshot_of w0 <> [] -> snapshot_of w1 = snapshot_of w0 ->
  db w2 = db w1
  /\ exists c1 c2,
       succeeded_with (sync_database w0).1 c1
       /\ succeeded_with (sync_database w1).1 c2
       /\ inserted_count c2 = 0%nat
       /\ updated_count c2 = (inserted_count c1 + updated_count c1)%nat.

(** The stages of [_perform_sync_and_update_all] started in [w]: the
    world once [current_time_str] is taken, and the world once
    [sync_database] has returned or raised. *)
Definition started (w : World) : World := (now w).2.
Definition reconciled (tx : transaction) (w : World) : World :=
  (sync_database_with tx (started w)).2.

(** [db_sync_ok] and [gsheet_update_ok] at the end of a run started in
    [w]. *)
Definition db_sync_ok_of (tx : transaction) (w : World) : bool :=
  match (sync_database_with tx (started w)).1 with
  | Ok _ => true
  | Raise _ => false
  end.

Definition gsheet_update_ok_of (tx : transaction) (w : World) : bool :=
  db_sync_ok_of tx w
  && match (gsheet_block (reconciled tx w)).1 with
     | Ok flags => flags.2
     | Raise _ => false
     end.








(** Every row of the table, as the SELECT list shows it. *)
Definition all_rows (pets : gmap string pet) : list pet_dict :=
  select_columns <$> map_to_list pets.

Definition active_rows (rows : list pet_dict) : list pet_dict :=
  filter (fun r => d_archived r = false) rows.

Definition archived_rows (rows : list pet_dict) : list pet_dict :=
  filter (fun r => d_archived r = true) rows.

(** Rows with [archived = 0] first, and each of the two groups in the
    order [leb] of the names. *)
Definition ordered_result (leb : option string -> option string -> bool)
    (rows : list pet_dict) : Prop :=
  rows = (active_rows rows ++ archived_rows rows)%list
  /\ StronglySorted (fun r1 r2 => leb (d_name r1) (d_name r2) = true)
       (active_rows rows)
  /\ StronglySorted (fun r1 r2 => leb (d_name r1) (d_name r2) = true)
       (archived_rows rows).

(** Alphabetical order that ignores case. *)
Definition ci_name_leb (a b : option string) : bool :=
  name_leb (lower <$> a) (lower <$> b).

(** The unfiltered query returns every row, active rows first, each group
    alphabetical by name without regard to case. *)
Definition query_all_case_insensitive (pets : gmap string pet) : Prop :=
  let rows := select_pets "" "All" "All" "All" pets in
  rows ≡ₚ all_rows pets /\ ordered_result ci_name_leb rows.


(** ** Sample data *)

Definition sample_item (i n : string) : soup_item :=
  Item {| item_id := Some i; item_name := Some n; item_species := Some "Dog";
          item_breed := None; item_sexSN := None; item_age := None;
          item_hidden := None; item_detail := None; item_photo_src := None |}.

Definition rex : soup_item := sample_item "A1" "Rex".
Definition mia : soup_item := sample_item "A2" "Mia".

Definition default_settings : settings :=
  {| sync_archived_to_gsheet := true;
     last_successful_sync_all := None;
     last_successful_gsheet_update := None |}.

(** A fresh installation: empty table, empty sheet, a clock that
    advances by one second between two readings, and a sheet API that
    behaves as [api] says. *)
Definition fresh_world (pages : nat -> http_response)
    (api : nat -> gsheet_outcome) : World :=
  {| remote := pages; fetches := 0; clock := fun k => 1000 + Z.of_nat k;
     clock_reads := 0; db := ∅; gsheet_api := api; gsheet_calls := 0;
     sheet := []; config := default_settings |}.

(** The site lists Rex on every request. *)
Definition rex_world : World :=
  fresh_world (fun _ => Page [rex]) (fun _ => GsSucceeds).

(** The site lists Rex and Mia, then Rex alone, then nothing. *)
Definition scenario_pages (k : nat) : http_response :=
  match k with
  | 0%nat => Page [rex; mia]
  | 1%nat => Page [rex]
  | _ => Page []
  end.

Definition scenario_world : World :=
  fresh_world scenario_pages (fun _ => GsSucceeds).


Definition sample_pet (n : string) (is_archived : bool) : pet :=
  {| name := Some n; species := Some "Cat"; breed := None; sexSN := None;
     age := None; location := None; detail_id := None; photo_url := None;
     last_seen := 1000; archived := is_archived |}.

(** Two active pets whose names differ in the case of the first letter. *)
Definition mixed_case_pets : gmap string pet :=
  <["A1" := sample_pet "apple" false]> (<["A2" := sample_pet "Zed" false]> ∅).

(** The site does not answer, and the table holds two pets. *)
Definition outage_world : World :=
  set_db mixed_case_pets (fresh_world (fun _ => Timeout) (fun _ => GsSucceeds)).

(** The scenario after its first run. *)
Definition second_run_world : World := (sync_database scenario_world).2.

(** The site lists Rex, then Mia instead of Rex. *)
Definition swap_pages (k : nat) : http_response :=
  match k with
  | 0%nat => Page [rex]
  | _ => Page [mia]
  end.

Definition swap_world : World := fresh_world swap_pages (fun _ => GsSucceeds).

(** Mia is listed, disappears, and is listed again under a new name. *)
Definition reappear_pages (k : nat) : http_response :=
  match k with
  | 0%nat => Page [rex; mia]
  | 1%nat => Page [rex]
  | _ => Page [rex; sample_item "A2" "Mia II"]
  end.

Definition reappear_world : World :=
  (sync_database
     (sync_database (fresh_world reappear_pages (fun _ => GsSucceeds))).2).2.

(** A table with one archived pet, and archived pets kept off the sheet,
    which still shows what an earlier push wrote. *)
Definition archived_only_world : World :=
  {| remote := fun _ => Timeout; fetches := 0; clock := fun k => 1000 + Z.of_nat k;
     clock_reads := 0; db := <["A2" := sample_pet "Mia" true]> ∅;
     gsheet_api := fun _ => GsSucceeds; gsheet_calls := 1;
     sheet := rows_to_write [select_columns ("A2", sample_pet "Mia" false)];
     config := {| sync_archived_to_gsheet := false;
                  last_successful_sync_all := Some 900;
                  last_successful_gsheet_update := Some 900 |} |}.

(** ** PetSyncGUI: the sheet-only run *)




(** ** PetSyncGUI: the pet table and its filters *)







(** ** TkLogHandler *)

Definition LOG_BUFFER_MAX_LINES : nat := 500.

(** [emit], on the formatted entry: append, then drop the oldest line
    when the buffer is over its bound. *)
Definition emit (log_buffer : list string) (log_entry : string)
    : list string :=
  let log_buffer := (log_buffer ++ [log_entry])%list in
  if (LOG_BUFFER_MAX_LINES <? length log_buffer)%nat
  then drop 1 log_buffer
  else log_buffer.

(** ** Consistency of the window *)

(** The buttons are as [update_button_states] last set them for the
    current [sync_running], and the scheduler holds the job exactly while
    automatic sync is on. *)
Definition gui_consistent (g : Gui) : Prop :=
  pet_sync_job g = sync_running g
  /\ exists operation_running,
       btn_start_sync g
       = (if sync_running g || operation_running then disabled else normal)
       /\ btn_stop_sync g
          = (if sync_running g && negb operation_running then normal else disabled)
       /\ btn_manual_sync_all g = btn_start_sync g
       /\ btn_manual_gsheet_sync g = btn_start_sync g.

(** The record that [fetch_animals] builds from [sample_item i n]. *)
Definition sample_animal (i n : string) : animal :=
  {| a_id := Some i; a_name := Some n; a_species := Some "Dog";
     a_breed := None; a_sexSN := None; a_age := None; a_location := None;
     a_detail_id := None; a_photo_url := None |}.

(** The rows that the archival UPDATE of a run on snapshot ids [active]
    selects in a table: not archived yet, id not listed. *)
Definition vanished (active : gset string) (pets : gmap string pet)
    : gmap string pet :=
  filter (fun ip => (ip.1 ∉ active) /\ archived ip.2 = false) pets.

(** The site lists id A1 twice, under two names. *)
Definition duplicate_world : World :=
  fresh_world (fun _ => Page [rex; sample_item "A1" "Rex II"])
              (fun _ => GsSucceeds).

(** The pet ids found on a page, item by item; items whose parsing
    raises have none. *)
Definition item_ids (items : list soup_item) : list (option string) :=
  omap (fun it => match it with
                  | ItemError => None
                  | Item i => Some (item_id i)
                  end) items.


(** A string made of [%] only. *)
Fixpoint all_percent (s : string) : bool :=
  match s with
  | EmptyString => true
  | String c s' => Ascii.eqb c "%" && all_percent s'
  end.




(** The search pattern built from [term] is within SQLite's bound. *)
Definition within_like_limit (term : string) : bool :=
  (N.of_nat (String.length term) + 2 <=? SQLITE_MAX_LIKE_PATTERN_LENGTH)%N.


(** * Properties *)

(** ** Running sync_database *)

Lemma is_empty_true {A} (l : list A) : is_empty l = true <-> l = [].
Proof. destruct l; simpl; split; congruence. Qed.

Lemma is_empty_false {A} (l : list A) : is_empty l = false <-> l <> [].
Proof. destruct l; simpl; split; congruence. Qed.

Lemma sync_database_with_empty tx w :
  snapshot_of w = [] ->
  sync_database_with tx w = (Raise no_data, after_fetch w).
Proof.
  unfold snapshot_of, sync_database_with, after_fetch, attempts, bind, now,
    fetch_animals, ret, raise.
  simpl.
  destruct (is_empty (parse_response (remote w (fetches w)))) eqn:E1; simpl.
  - intros ->. simpl. unfold set_fetches, set_clock_reads. simpl.
    repeat f_equal. lia.
  - intros H. rewrite H in E1. discriminate.
Qed.

Lemma sync_database_empty w :
  snapshot_of w = [] ->
  sync_database w = (Raise no_data, after_fetch w).
Proof. apply sync_database_with_empty. Qed.

(** A transaction that does not commit: the exception leaves
    [sync_database], and the table is as it was. *)
Lemma sync_database_with_raises tx w :
  snapshot_of w <> [] -> tx <> Commits ->
  sync_database_with tx w
  = (Raise (match tx with
            | RaisesSqlite3Error => Sqlite3Error
            | _ => OtherException
            end), after_fetch w).
Proof.
  unfold snapshot_of, sync_database_with, after_fetch, attempts, bind, now,
    fetch_animals, ret, raise.
  simpl.
  destruct (is_empty (parse_response (remote w (fetches w)))) eqn:E1; simpl.
  - intros H Htx. apply is_empty_false in H. rewrite H.
    destruct tx; [congruence| |]; unfold set_fetches, set_clock_reads;
      simpl; repeat f_equal; lia.
  - intros _ Htx. rewrite E1.
    destruct tx; [congruence| |]; unfold set_fetches, set_clock_reads;
      simpl; repeat f_equal; lia.
Qed.

Lemma sync_database_ok w :
  snapshot_of w <> [] ->
  sync_database w =
    (Ok (reconcile (sync_time_of w) (snapshot_of w) (db w)).2,
     set_db (reconcile (sync_time_of w) (snapshot_of w) (db w)).1
            (after_fetch w)).
Proof.
  unfold snapshot_of, sync_database, sync_database_with, after_fetch,
    attempts, sync_time_of, bind, now, fetch_animals, ret, raise, gets,
    modify.
  simpl.
  destruct (is_empty (parse_response (remote w (fetches w)))) eqn:E1; simpl.
  - intros H. apply is_empty_false in H. rewrite H.
    destruct (reconcile _ _ _) as [pets' counts]. simpl.
    unfold set_db, set_fetches, set_clock_reads. simpl.
    repeat f_equal. lia.
  - intros _. rewrite E1.
    destruct (reconcile _ _ _) as [pets' counts]. simpl.
    unfold set_db, set_fetches, set_clock_reads. simpl.
    repeat f_equal. lia.
Qed.

(** Every dictionary that [fetch_animals] returns has a truthy id. *)
Lemma parse_item_valid it a :
  parse_item it = Some a -> truthy (a_id a) = true.
Proof.
  destruct it as [|i]; simpl; [discriminate|].
  destruct (truthy (item_id i)) eqn:E; simpl; [|discriminate].
  intros [= <-]. exact E.
Qed.

Lemma parse_response_valid r a :
  a ∈ parse_response r -> truthy (a_id a) = true.
Proof.
  destruct r as [| |items]; simpl; intros H.
  - by apply elem_of_nil in H.
  - by apply elem_of_nil in H.
  - apply list_elem_of_omap in H as (it & _ & Hit).
    eapply parse_item_valid; eauto.
Qed.

Lemma snapshot_valid w a :
  a ∈ snapshot_of w -> truthy (a_id a) = true.
Proof.
  unfold snapshot_of.
  destruct (is_empty _); apply parse_response_valid.
Qed.

Lemma valid_id_truthy a : truthy (a_id a) = true -> valid_id a = a_id a.
Proof. unfold valid_id. intros ->. reflexivity. Qed.

Lemma valid_id_Some a i : valid_id a = Some i -> a_id a = Some i.
Proof. unfold valid_id. destruct (truthy (a_id a)); congruence. Qed.

Lemma truthy_is_Some o : truthy o = true -> exists s, o = Some s.
Proof. destruct o; simpl; eauto; discriminate. Qed.

Lemma elem_of_active_ids S i :
  i ∈ active_ids S <-> exists a, a ∈ S /\ valid_id a = Some i.
Proof.
  unfold active_ids. rewrite elem_of_list_to_set, list_elem_of_omap.
  reflexivity.
Qed.

Lemma snapshot_active_ids w i :
  i ∈ active_ids (snapshot_of w) <->
  exists a, a ∈ snapshot_of w /\ a_id a = Some i.
Proof.
  rewrite elem_of_active_ids. split; intros (a & Ha & Hi); exists a; split; auto.
  - apply valid_id_Some; auto.
  - rewrite valid_id_truthy; auto. eapply snapshot_valid; eauto.
Qed.

Lemma snapshot_active_nonempty w :
  snapshot_of w <> [] -> active_ids (snapshot_of w) <> ∅.
Proof.
  intros Hne Hempty.
  destruct (snapshot_of w) as [|a S] eqn:E; [congruence|].
  assert (Ha : a ∈ snapshot_of w) by (rewrite E; left).
  pose proof (snapshot_valid _ _ Ha) as Hv.
  destruct (truthy_is_Some _ Hv) as [i Hi].
  assert (i ∈ active_ids (snapshot_of w)) as Hin.
  { apply snapshot_active_ids. eauto. }
  rewrite E, Hempty in Hin. set_solver.
Qed.

(** ** The transaction: what reconcile does to each row *)

Section Reconcile.
Variable t : timestamp.

Lemma upsert_table acc a :
  (upsert t acc a).1.1 = put_animal t acc.1.1 a.
Proof.
  destruct acc as [[pets u] n]. unfold upsert, put_animal. simpl.
  destruct (valid_id a) as [i|]; [|reflexivity].
  destruct (pets !! i); reflexivity.
Qed.

Lemma foldl_upsert_table S acc :
  (foldl (upsert t) acc S).1.1 = foldl (put_animal t) acc.1.1 S.
Proof.
  revert acc. induction S as [|a S IH]; intros acc; simpl; [reflexivity|].
  rewrite IH, upsert_table. reflexivity.
Qed.

Lemma put_all_lookup_notin S pets i :
  i ∉ active_ids S -> foldl (put_animal t) pets S !! i = pets !! i.
Proof.
  revert pets. induction S as [|a S IH]; intros pets Hi; simpl; [reflexivity|].
  rewrite IH.
  - unfold put_animal. destruct (valid_id a) as [j|] eqn:Ej; [|reflexivity].
    apply lookup_insert_ne. intros ->. apply Hi.
    apply elem_of_active_ids. exists a. split; [left|exact Ej].
  - intros Hin. apply Hi. apply elem_of_active_ids.
    apply elem_of_active_ids in Hin as (b & Hb & Hbi).
    exists b. split; [by right|exact Hbi].
Qed.

Lemma put_all_lookup_last S1 a S2 pets i :
  valid_id a = Some i -> i ∉ active_ids S2 ->
  foldl (put_animal t) pets (S1 ++ a :: S2) !! i = Some (pet_row t a).
Proof.
  intros Ha Hi. rewrite foldl_app. simpl.
  rewrite put_all_lookup_notin by exact Hi.
  unfold put_animal at 1. rewrite Ha. apply lookup_insert_eq.
Qed.

Lemma put_all_lookup_in S pets i :
  i ∈ active_ids S ->
  exists a, a ∈ S /\ valid_id a = Some i
            /\ foldl (put_animal t) pets S !! i = Some (pet_row t a).
Proof.
  induction S as [|a S IH] using rev_ind; intros Hi.
  - apply elem_of_active_ids in Hi as (b & Hb & _). by apply elem_of_nil in Hb.
  - rewrite foldl_snoc. unfold put_animal at 1.
    destruct (valid_id a) as [j|] eqn:Ej.
    + destruct (decide (j = i)) as [->|Hne].
      * exists a. rewrite lookup_insert_eq. split; [|auto].
        apply elem_of_app. right. left.
      * rewrite lookup_insert_ne by exact Hne.
        destruct IH as (b & Hb & Hbi & Hl).
        { apply elem_of_active_ids in Hi as (b & Hb & Hbi).
          apply elem_of_app in Hb as [Hb|Hb].
          - apply elem_of_active_ids. eauto.
          - apply list_elem_of_singleton in Hb as ->. congruence. }
        exists b. split; [apply elem_of_app; by left|auto].
    + destruct IH as (b & Hb & Hbi & Hl).
      { apply elem_of_active_ids in Hi as (b & Hb & Hbi).
        apply elem_of_app in Hb as [Hb|Hb].
        - apply elem_of_active_ids. eauto.
        - apply list_elem_of_singleton in Hb as ->. congruence. }
      exists b. split; [apply elem_of_app; by left|auto].
Qed.

Lemma put_all_is_Some S pets i :
  is_Some (pets !! i) -> is_Some (foldl (put_animal t) pets S !! i).
Proof.
  revert pets. induction S as [|a S IH]; intros pets H; simpl; [exact H|].
  apply IH. unfold put_animal. destruct (valid_id a) as [j|]; [|exact H].
  destruct (decide (j = i)) as [->|Hne].
  - rewrite lookup_insert_eq. eauto.
  - by rewrite lookup_insert_ne.
Qed.

(** Every valid record of the snapshot is counted once, as an insert
    or as an update. *)
Lemma foldl_upsert_counts S acc :
  ((foldl (upsert t) acc S).1.2 + (foldl (upsert t) acc S).2
   = acc.1.2 + acc.2 + length (omap valid_id S))%nat.
Proof.
  revert acc. induction S as [|a S IH]; intros acc; simpl; [lia|].
  rewrite IH.
  assert (length (omap valid_id (a :: S))
          = (match valid_id a with Some _ => 1 | None => 0 end
             + length (omap valid_id S))%nat)
    as Hlen by (simpl; destruct (valid_id a); reflexivity).
  simpl in Hlen. rewrite Hlen. clear Hlen.
  generalize (length (omap valid_id S)). intros k.
  destruct acc as [[pets u] n]. unfold upsert.
  destruct (valid_id a) as [i|]; simpl; [|lia].
  destruct (pets !! i); simpl; lia.
Qed.

(** When every id of the snapshot is already in the table, nothing is
    inserted. *)
Lemma foldl_upsert_no_insert S acc :
  (forall i, i ∈ active_ids S -> is_Some (acc.1.1 !! i)) ->
  (foldl (upsert t) acc S).2 = acc.2.
Proof.
  revert acc. induction S as [|a S IH]; intros acc H; simpl; [reflexivity|].
  rewrite IH.
  - destruct acc as [[pets u] n]. unfold upsert. simpl in *.
    destruct (valid_id a) as [i|] eqn:Ei; [|reflexivity].
    destruct (H i) as [p Hp].
    { apply elem_of_active_ids. exists a. split; [left|exact Ei]. }
    rewrite Hp. reflexivity.
  - intros i Hi. rewrite upsert_table.
    assert (is_Some (acc.1.1 !! i)) as Hs.
    { apply H. apply elem_of_active_ids in Hi as (b & Hb & Hbi).
      apply elem_of_active_ids. exists b. split; [by right|exact Hbi]. }
    unfold put_animal. destruct (valid_id a) as [j|]; [|exact Hs].
    destruct (decide (j = i)) as [->|Hne].
    + rewrite lookup_insert_eq. eauto.
    + by rewrite lookup_insert_ne.
Qed.

Lemma archive_missing_lookup active pets i :
  (archive_missing t active pets).1 !! i
  = (fun p => if to_archive active i p then archive_pet t p else p)
      <$> pets !! i.
Proof.
  unfold archive_missing. simpl. rewrite map_lookup_imap.
  destruct (pets !! i); reflexivity.
Qed.

Lemma reconcile_table S pets :
  (reconcile t S pets).1
  = if bool_decide (active_ids S <> ∅)
    then (archive_missing t (active_ids S) (foldl (put_animal t) pets S)).1
    else foldl (put_animal t) pets S.
Proof.
  unfold reconcile.
  pose proof (foldl_upsert_table S (pets, 0%nat, 0%nat)) as Ht.
  destruct (foldl (upsert t) (pets, 0%nat, 0%nat) S) as [[pets1 u] n].
  simpl in Ht. subst pets1.
  destruct (bool_decide (active_ids S <> ∅)); reflexivity.
Qed.

Lemma reconcile_inserted S pets :
  inserted_count (reconcile t S pets).2
  = (foldl (upsert t) (pets, 0%nat, 0%nat) S).2.
Proof.
  unfold reconcile.
  destruct (foldl (upsert t) (pets, 0%nat, 0%nat) S) as [[pets1 u] n].
  destruct (bool_decide _); [destruct (archive_missing _ _ _)|]; reflexivity.
Qed.

Lemma reconcile_updated S pets :
  updated_count (reconcile t S pets).2
  = (foldl (upsert t) (pets, 0%nat, 0%nat) S).1.2.
Proof.
  unfold reconcile.
  destruct (foldl (upsert t) (pets, 0%nat, 0%nat) S) as [[pets1 u] n].
  destruct (bool_decide _); [destruct (archive_missing _ _ _)|]; reflexivity.
Qed.

Lemma reconcile_archived S pets :
  archived_count (reconcile t S pets).2
  = if bool_decide (active_ids S <> ∅)
    then (archive_missing t (active_ids S) (foldl (put_animal t) pets S)).2
    else 0%nat.
Proof.
  unfold reconcile.
  pose proof (foldl_upsert_table S (pets, 0%nat, 0%nat)) as Ht.
  destruct (foldl (upsert t) (pets, 0%nat, 0%nat) S) as [[pets1 u] n].
  simpl in Ht. subst pets1.
  destruct (bool_decide _); [destruct (archive_missing _ _ _)|]; reflexivity.
Qed.

(** A row whose id is in the snapshot holds the values of a record of
    the snapshot with that id. *)
Lemma reconcile_lookup_active S pets i :
  i ∈ active_ids S ->
  exists a, a ∈ S /\ valid_id a = Some i
            /\ (reconcile t S pets).1 !! i = Some (pet_row t a).
Proof.
  intros Hi. destruct (put_all_lookup_in S pets i Hi) as (a & Ha & Hai & Hl).
  exists a. split; [exact Ha|]. split; [exact Hai|].
  rewrite reconcile_table. destruct (bool_decide _); [|exact Hl].
  rewrite archive_missing_lookup, Hl. simpl.
  unfold to_archive. rewrite bool_decide_eq_false_2; [reflexivity|].
  intros Hn. exact (Hn Hi).
Qed.

Lemma reconcile_lookup_last S1 a S2 pets i :
  valid_id a = Some i -> i ∉ active_ids S2 ->
  (reconcile t (S1 ++ a :: S2) pets).1 !! i = Some (pet_row t a).
Proof.
  intros Ha Hi.
  pose proof (put_all_lookup_last S1 a S2 pets i Ha Hi) as Hl.
  rewrite reconcile_table. destruct (bool_decide _); [|exact Hl].
  rewrite archive_missing_lookup, Hl. simpl.
  unfold to_archive. rewrite bool_decide_eq_false_2; [reflexivity|].
  intros Hn. apply Hn. apply elem_of_active_ids. exists a.
  split; [|exact Ha]. apply elem_of_app. right. left.
Qed.

(** A row whose id is not in the snapshot is archived when it was not,
    and is otherwise left alone. *)
Lemma reconcile_lookup_missing S pets i :
  active_ids S <> ∅ -> i ∉ active_ids S ->
  (reconcile t S pets).1 !! i = archive_if_active t <$> pets !! i.
Proof.
  intros Hne Hi. rewrite reconcile_table.
  rewrite bool_decide_eq_true_2 by exact Hne.
  rewrite archive_missing_lookup, put_all_lookup_notin by exact Hi.
  destruct (pets !! i) as [p|]; [|reflexivity]. simpl.
  unfold to_archive, archive_if_active.
  rewrite bool_decide_eq_true_2 by exact Hi. simpl.
  destruct (archived p); reflexivity.
Qed.
End Reconcile.

(** ** Empty snapshots and the retry *)

(** C1. When the snapshot is still empty after the retry, [sync_database]
    raises the connection error and the table is exactly what it was: every
    row keeps its archived flag and its last_seen, no id appears or
    disappears. *)
Theorem C1_empty_snapshot_leaves_store (w : World) :
  snapshot_of w = [] ->
  (sync_database w).1 = Raise no_data
  /\ db (sync_database w).2 = db w
  /\ (forall i p, db w !! i = Some p ->
        exists p', db (sync_database w).2 !! i = Some p'
                   /\ archived p' = archived p /\ last_seen p' = last_seen p)
  /\ (forall i, db w !! i = None -> db (sync_database w).2 !! i = None).
Proof.
  intros H. rewrite (sync_database_empty w H). simpl.
  repeat split; auto. intros i p Hp. exists p. auto.
Qed.

(** C9. An empty first fetch is followed by exactly one more GET; when
    that one is empty too the run ends in the connection error, which is no
    successful result, and no third GET is issued. A run never succeeds on
    an empty list. *)
Theorem C9_retry_once_then_error (w : World) :
  parse_response (remote w (fetches w)) = [] ->
  fetches (sync_database w).2 = (fetches w + 2)%nat
  /\ snapshot_of w = parse_response (remote w (S (fetches w)))
  /\ (parse_response (remote w (S (fetches w))) = [] ->
      (sync_database w).1 = Raise no_data
      /\ forall counts, (sync_database w).1 <> Ok counts).
Proof.
  intros H1.
  assert (Hs : snapshot_of w = parse_response (remote w (S (fetches w)))).
  { unfold snapshot_of. rewrite H1. reflexivity. }
  assert (Ha : attempts w = 2%nat).
  { unfold attempts. rewrite H1. reflexivity. }
  split; [|split; [exact Hs|]].
  - destruct (snapshot_of w) as [|a S] eqn:E.
    + rewrite (sync_database_empty w E). simpl. rewrite Ha. reflexivity.
    + rewrite sync_database_ok by (rewrite E; discriminate).
      simpl. rewrite Ha. reflexivity.
  - intros H2. rewrite <- Hs in H2.
    rewrite (sync_database_empty w H2). simpl. split; [reflexivity|].
    intros counts. discriminate.
Qed.

(** ** One timestamp per run *)

(** C6. A successful run reads the clock once, and that reading is the
    last_seen of every row it touches: the rows of the snapshot (inserted
    or updated) and the rows it archives. Every other row is left as it
    was. *)
Theorem C6_single_sync_timestamp (w : World) :
  snapshot_of w <> [] ->
  let w' := (sync_database w).2 in
  let t := sync_time_of w in
  clock_reads w' = S (clock_reads w)
  /\ (forall i, i ∈ active_ids (snapshot_of w) ->
        exists p, db w' !! i = Some p /\ last_seen p = t)
  /\ (forall i p, i ∉ active_ids (snapshot_of w) ->
        db w !! i = Some p -> archived p = false ->
        exists p', db w' !! i = Some p' /\ archived p' = true
                   /\ last_seen p' = t)
  /\ (forall i p', db w' !! i = Some p' ->
        last_seen p' = t \/ db w !! i = Some p').
Proof.
  intros Hne. rewrite (sync_database_ok w Hne). simpl.
  pose proof (snapshot_active_nonempty w Hne) as Hact.
  split; [reflexivity|]. split; [|split].
  - intros i Hi.
    destruct (reconcile_lookup_active (sync_time_of w) _ (db w) i Hi)
      as (a & _ & _ & Hl).
    exists (pet_row (sync_time_of w) a). split; [exact Hl|reflexivity].
  - intros i p Hi Hp Harch.
    rewrite (reconcile_lookup_missing _ _ _ _ Hact Hi), Hp. simpl.
    unfold archive_if_active. rewrite Harch.
    eexists. split; [reflexivity|]. split; reflexivity.
  - intros i p' Hp'.
    destruct (decide (i ∈ active_ids (snapshot_of w))) as [Hi|Hi].
    + destruct (reconcile_lookup_active (sync_time_of w) _ (db w) i Hi)
        as (a & _ & _ & Hl).
      rewrite Hl in Hp'. injection Hp' as <-. left. reflexivity.
    + rewrite (reconcile_lookup_missing _ _ _ _ Hact Hi) in Hp'.
      destruct (db w !! i) as [p|]; [|discriminate]. simpl in Hp'.
      injection Hp' as <-. unfold archive_if_active.
      destruct (archived p); [right; reflexivity|left; reflexivity].
Qed.

(** ** Consecutive runs *)

Lemma appears_in_snapshot w i :
  appears_in i (snapshot_of w) <-> i ∈ active_ids (snapshot_of w).
Proof. unfold appears_in. symmetry. apply snapshot_active_ids. Qed.

Lemma appears_in_nonempty i S : appears_in i S -> S <> [].
Proof. intros (a & Ha & _) ->. by apply elem_of_nil in Ha. Qed.

(** The table after a run, whatever the snapshot. *)
Lemma sync_database_db w :
  db (sync_database w).2
  = if is_empty (snapshot_of w) then db w
    else (reconcile (sync_time_of w) (snapshot_of w) (db w)).1.
Proof.
  destruct (snapshot_of w) as [|a S] eqn:E.
  - rewrite (sync_database_empty w E). reflexivity.
  - rewrite sync_database_ok by (rewrite E; discriminate).
    rewrite E. reflexivity.
Qed.

Lemma sync_database_db_ok w :
  snapshot_of w <> [] ->
  db (sync_database w).2 = (reconcile (sync_time_of w) (snapshot_of w) (db w)).1.
Proof.
  intros H. rewrite sync_database_db.
  apply is_empty_false in H. rewrite H. reflexivity.
Qed.

(** An id absent from the snapshot and from the table stays absent. *)
Lemma sync_database_absent w i :
  i ∉ active_ids (snapshot_of w) -> db w !! i = None ->
  db (sync_database w).2 !! i = None.
Proof.
  intros Hi Hn. rewrite sync_database_db.
  destruct (is_empty (snapshot_of w)) eqn:E; [exact Hn|].
  apply is_empty_false in E.
  rewrite (reconcile_lookup_missing _ _ _ _ (snapshot_active_nonempty w E) Hi).
  rewrite Hn. reflexivity.
Qed.

(** C2. Two consecutive runs, the second on a non-empty snapshot: an id
    listed in the first snapshot and not in the second is archived after
    the second run; an id listed in the second snapshot only, and not in
    the table before, is absent after the first run and present with
    archived = 0 after the second. *)
Theorem C2_archival_correctness (w0 : World) :
  let w1 := (sync_database w0).2 in
  let w2 := (sync_database w1).2 in
  snapshot_of w1 <> [] ->
  (forall i, appears_in i (snapshot_of w0) -> ~ appears_in i (snapshot_of w1) ->
     exists p, db w2 !! i = Some p /\ archived p = true)
  /\ (forall i, appears_in i (snapshot_of w1) -> ~ appears_in i (snapshot_of w0) ->
        db w0 !! i = None ->
        db w1 !! i = None
        /\ exists p, db w2 !! i = Some p /\ archived p = false).
Proof.
  intros w1 w2 Hne2.
  pose proof (snapshot_active_nonempty w1 Hne2) as Hact2.
  split.
  - intros i H1 H2.
    pose proof (appears_in_nonempty _ _ H1) as Hne1.
    rewrite appears_in_snapshot in H1, H2.
    destruct (reconcile_lookup_active (sync_time_of w0) _ (db w0) i H1)
      as (a & _ & _ & Hl).
    assert (Hdb1 : db w1 !! i = Some (pet_row (sync_time_of w0) a)).
    { unfold w1. rewrite sync_database_db_ok by exact Hne1. exact Hl. }
    unfold w2. rewrite sync_database_db_ok by exact Hne2.
    rewrite (reconcile_lookup_missing _ _ _ _ Hact2 H2), Hdb1. simpl.
    eexists. split; reflexivity.
  - intros i H2 H1 Hnone.
    rewrite appears_in_snapshot in H1, H2.
    split.
    + unfold w1. apply sync_database_absent; assumption.
    + unfold w2. rewrite sync_database_db_ok by exact Hne2.
      destruct (reconcile_lookup_active (sync_time_of w1) _ (db w1) i H2)
        as (a & _ & _ & Hl).
      rewrite Hl. eexists. split; reflexivity.
Qed.

(** C8. A row that is archived and whose id is listed in the snapshot of
    a run is, after the run, not archived any more and carries in every
    descriptive column the value of a record of the snapshot with that
    id. *)
Theorem C8_reappearance (w : World) (i : string) (p : pet) :
  db w !! i = Some p -> archived p = true ->
  appears_in i (snapshot_of w) ->
  exists a p',
    a ∈ snapshot_of w /\ a_id a = Some i
    /\ db (sync_database w).2 !! i = Some p'
    /\ archived p' = false
    /\ name p' = a_name a /\ species p' = a_species a
    /\ breed p' = a_breed a /\ sexSN p' = a_sexSN a /\ age p' = a_age a
    /\ location p' = a_location a /\ detail_id p' = a_detail_id a
    /\ photo_url p' = a_photo_url a.
Proof.
  intros _ _ Hi.
  pose proof (appears_in_nonempty _ _ Hi) as Hne.
  rewrite appears_in_snapshot in Hi.
  destruct (reconcile_lookup_active (sync_time_of w) _ (db w) i Hi)
    as (a & Ha & Hai & Hl).
  exists a, (pet_row (sync_time_of w) a).
  split; [exact Ha|]. split; [by apply valid_id_Some|].
  split; [rewrite sync_database_db_ok by exact Hne; exact Hl|].
  simpl. repeat split; reflexivity.
Qed.

(** With several records of one id in a snapshot, the last one wins. *)
Lemma sync_database_last_wins (w : World) (S1 S2 : list animal) a i :
  snapshot_of w = (S1 ++ a :: S2)%list -> a_id a = Some i ->
  ~ appears_in i S2 ->
  db (sync_database w).2 !! i = Some (pet_row (sync_time_of w) a).
Proof.
  intros HS Ha Hi.
  assert (Hin : a ∈ snapshot_of w).
  { rewrite HS. apply elem_of_app. right. left. }
  rewrite sync_database_db_ok by (rewrite HS; by destruct S1).
  rewrite HS. apply reconcile_lookup_last.
  - rewrite valid_id_truthy; [exact Ha|]. eapply snapshot_valid; eauto.
  - intros Hc. apply Hi. apply elem_of_active_ids in Hc as (b & Hb & Hbi).
    exists b. split; [exact Hb|]. by apply valid_id_Some.
Qed.

(** The scenario of three runs: two inserts; then one update and one
    archival; then the error, with the table untouched. *)
Example scenario_runs :
  let r1 := sync_database scenario_world in
  let r2 := sync_database r1.2 in
  let r3 := sync_database r2.2 in
  r1.1 = Ok {| inserted_count := 2; updated_count := 0; archived_count := 0 |}
  /\ r2.1 = Ok {| inserted_count := 0; updated_count := 1; archived_count := 1 |}
  /\ archived <$> db r2.2 !! "A1" = Some false
  /\ archived <$> db r2.2 !! "A2" = Some true
  /\ r3.1 = Raise no_data
  /\ db r3.2 = db r2.2.
Proof. vm_compute. repeat split; reflexivity. Qed.

(** ** Running on the same snapshot twice *)

Lemma last_occurrence (S : list animal) i :
  i ∈ active_ids S ->
  exists (S1 : list animal) a (S2 : list animal),
    S = (S1 ++ a :: S2)%list /\ valid_id a = Some i /\ i ∉ active_ids S2.
Proof.
  induction S as [|b S IH]; intros Hi.
  - apply elem_of_active_ids in Hi as (a & Ha & _). by apply elem_of_nil in Ha.
  - destruct (decide (i ∈ active_ids S)) as [Hin|Hnin].
    + destruct (IH Hin) as (S1 & a & S2 & -> & Ha & Hn).
      exists (b :: S1), a, S2. auto.
    + exists [], b, S. split; [reflexivity|]. split; [|exact Hnin].
      apply elem_of_active_ids in Hi as (a & Ha & Hai).
      apply elem_of_cons in Ha as [->|Ha]; [exact Hai|].
      exfalso. apply Hnin. apply elem_of_active_ids. eauto.
Qed.

Lemma archive_if_active_archived t p : archived (archive_if_active t p) = true.
Proof. unfold archive_if_active. destruct (archived p) eqn:E; auto. Qed.

Lemma archive_if_active_twice t1 t2 p :
  archive_if_active t2 (archive_if_active t1 p) = archive_if_active t1 p.
Proof.
  unfold archive_if_active at 1. rewrite archive_if_active_archived.
  reflexivity.
Qed.

Lemma with_last_seen_pet_row t1 t2 a :
  with_last_seen t2 (pet_row t1 a) = pet_row t2 a.
Proof. reflexivity. Qed.

(** Nothing is left to archive when the previous run used the same set
    of ids. *)
Lemma nothing_to_archive t1 t2 S pets :
  active_ids S <> ∅ ->
  (archive_missing t2 (active_ids S)
     (foldl (put_animal t2) (reconcile t1 S pets).1 S)).2 = 0%nat.
Proof.
  intros Hact. unfold archive_missing. simpl.
  apply map_size_empty_iff, map_empty_filter_2, map_Forall_lookup.
  intros i x Hx. simpl. unfold to_archive.
  destruct (decide (i ∈ active_ids S)) as [Hi|Hi].
  - rewrite bool_decide_eq_false_2; [simpl; discriminate|]. auto.
  - rewrite put_all_lookup_notin in Hx by exact Hi.
    rewrite (reconcile_lookup_missing _ _ _ _ Hact Hi) in Hx.
    destruct (pets !! i) as [p|]; [|discriminate]. simpl in Hx.
    injection Hx as <-. rewrite archive_if_active_archived.
    rewrite andb_false_r. discriminate.
Qed.

(** C7 (amended). Two runs in a row on the same non-empty snapshot: the
    second inserts nothing, updates as many rows as the first inserted or
    updated, archives nothing, leaves every row outside the snapshot as the
    first run left it, and changes in the rows of the snapshot the
    last_seen column only, which takes the time of the second run. The
    table is the same after both runs when the two runs read the same
    time. *)
Theorem C7_second_run_refreshes_last_seen_only (w0 : World) :
  let w1 := (sync_database w0).2 in
  let w2 := (sync_database w1).2 in
  snapshot_of w0 <> [] -> snapshot_of w1 = snapshot_of w0 ->
  (forall i, appears_in i (snapshot_of w0) ->
     db w2 !! i = with_last_seen (sync_time_of w1) <$> db w1 !! i)
  /\ (forall i, ~ appears_in i (snapshot_of w0) -> db w2 !! i = db w1 !! i)
  /\ (sync_time_of w1 = sync_time_of w0 -> db w2 = db w1)
  /\ exists c1 c2,
       succeeded_with (sync_database w0).1 c1
       /\ succeeded_with (sync_database w1).1 c2
       /\ inserted_count c2 = 0%nat
       /\ updated_count c2 = (inserted_count c1 + updated_count c1)%nat
       /\ archived_count c2 = 0%nat.
Proof.
  intros w1 w2 Hne Hsame.
  assert (Hne1 : snapshot_of w1 <> []) by (rewrite Hsame; exact Hne).
  pose proof (snapshot_active_nonempty w0 Hne) as Hact.
  set (S := snapshot_of w0) in *.
  set (t1 := sync_time_of w0). set (t2 := sync_time_of w1).
  assert (Hdb1 : db w1 = (reconcile t1 S (db w0)).1).
  { unfold w1. apply sync_database_db_ok. exact Hne. }
  assert (Hdb2 : db w2 = (reconcile t2 S (db w1)).1).
  { unfold w2. rewrite sync_database_db_ok by exact Hne1.
    rewrite Hsame. reflexivity. }
  assert (Hin : forall i, i ∈ active_ids S ->
            db w2 !! i = with_last_seen t2 <$> db w1 !! i).
  { intros i Hi.
    destruct (last_occurrence S i Hi) as (S1 & a & S2 & HS & Ha & Hn).
    rewrite Hdb2, Hdb1, HS.
    rewrite !(reconcile_lookup_last _ S1 a S2 _ i Ha Hn). reflexivity. }
  assert (Hout : forall i, i ∉ active_ids S -> db w2 !! i = db w1 !! i).
  { intros i Hi. rewrite Hdb2.
    rewrite (reconcile_lookup_missing _ _ _ _ Hact Hi).
    rewrite Hdb1, (reconcile_lookup_missing _ _ _ _ Hact Hi).
    destruct (db w0 !! i) as [p|]; [|reflexivity]. simpl.
    rewrite archive_if_active_twice. reflexivity. }
  split; [|split; [|split]].
  - intros i Hi. apply Hin. by apply appears_in_snapshot.
  - intros i Hi. apply Hout. intros Hc. apply Hi. by apply appears_in_snapshot.
  - intros Ht. apply map_eq. intros i.
    destruct (decide (i ∈ active_ids S)) as [Hi|Hi]; [|by apply Hout].
    rewrite (Hin i Hi), Ht.
    destruct (last_occurrence S i Hi) as (S1 & a & S2 & HS & Ha & Hn).
    rewrite Hdb1, HS, (reconcile_lookup_last _ S1 a S2 _ i Ha Hn).
    reflexivity.
  - exists (reconcile t1 S (db w0)).2, (reconcile t2 S (db w1)).2.
    split; [unfold succeeded_with; rewrite sync_database_ok by exact Hne;
            reflexivity|].
    split; [unfold succeeded_with, w1 at 1;
            rewrite sync_database_ok by exact Hne1; fold w1;
            rewrite Hsame; reflexivity|].
    assert (Hins : inserted_count (reconcile t2 S (db w1)).2 = 0%nat).
    { rewrite reconcile_inserted, foldl_upsert_no_insert; [reflexivity|].
      simpl. intros i Hi. rewrite Hdb1.
      destruct (reconcile_lookup_active t1 S (db w0) i Hi) as (a & _ & _ & Hl).
      rewrite Hl. eauto. }
    split; [exact Hins|]. split.
    + pose proof (foldl_upsert_counts t2 S (db w1, 0%nat, 0%nat)) as H2.
      pose proof (foldl_upsert_counts t1 S (db w0, 0%nat, 0%nat)) as H1.
      rewrite <- reconcile_inserted, <- reconcile_updated in H1, H2.
      simpl in H1, H2. lia.
    + rewrite reconcile_archived, bool_decide_eq_true_2 by exact Hact.
      rewrite Hdb1. apply nothing_to_archive. exact Hact.
Qed.

(** C7, as stated, fails: with a clock that moves between the two runs,
    the row of Rex has another last_seen after the second run. *)
Lemma C7_idempotence_counterexample : ~ idempotent_at rex_world.
Proof.
  unfold idempotent_at. intros H.
  destruct H as [Hdb _]; [vm_compute; discriminate|reflexivity|].
  apply (f_equal (fun m => last_seen <$> m !! "A1")) in Hdb.
  vm_compute in Hdb. discriminate.
Qed.

(** ** The sheet and the recorded times *)


(** C10. With nothing to send, the sheet step reports success and the
    sheet keeps its cells: [update_google_sheet] returns True on an empty
    list without calling the API, and the sheet block does not even call
    it when the table is empty or the setting filters every row out. *)
Theorem C10_empty_push_keeps_sheet (w : World) :
  update_google_sheet [] w = (Ok true, w)
  /\ (pets_to_send_to_gsheet (sync_archived_to_gsheet (config w))
        (select_pets "" "All" "All" "All" (db w)) = [] ->
      exists any_pets_for_sheet,
        gsheet_block w = (Ok (any_pets_for_sheet, true), w)
        /\ sheet (gsheet_block w).2 = sheet w
        /\ gsheet_calls (gsheet_block w).2 = gsheet_calls w).
Proof.
  split; [reflexivity|].
  intros H.
  unfold gsheet_block, fetch_filtered_pets_from_db, bind, gets, ret. simpl.
  destruct (is_empty (select_pets _ _ _ _ _)); simpl; [eauto|].
  rewrite H. simpl. eauto.
Qed.

(** ** The unfiltered query *)

Lemma where_clause_all i p : where_clause "" "All" "All" "All" i p = true.
Proof. reflexivity. Qed.

Lemma filter_all {A} (P : A -> Prop) `{!forall x, Decision (P x)} (l : list A) :
  (forall x, P x) -> filter P l = l.
Proof.
  intros HP. induction l as [|x l IH]; [reflexivity|].
  rewrite filter_cons_True by apply HP. by rewrite IH.
Qed.

Lemma select_pets_all pets :
  select_pets "" "All" "All" "All" pets = merge_sort order_le (all_rows pets).
Proof.
  unfold select_pets, all_rows. rewrite filter_all; [reflexivity|].
  intros [i p]. apply where_clause_all.
Qed.

Lemma name_leb_trans a b c :
  name_leb a b = true -> name_leb b c = true -> name_leb a c = true.
Proof.
  destruct a as [x|], b as [y|], c as [z|]; simpl; try congruence.
  intros H1 H2. apply Is_true_true. apply Is_true_true in H1, H2.
  change (String.le x z). transitivity y; assumption.
Qed.

Lemma name_leb_total a b : name_leb a b = true \/ name_leb b a = true.
Proof.
  destruct a as [x|], b as [y|]; simpl; auto. apply String.leb_total.
Qed.

#[global] Instance order_le_trans : Transitive order_le.
Proof.
  intros r1 r2 r3. unfold order_le, order_leb.
  destruct (d_archived r1), (d_archived r2), (d_archived r3);
    try congruence; apply name_leb_trans.
Qed.

#[global] Instance order_le_total : Total order_le.
Proof.
  intros r1 r2. unfold order_le, order_leb.
  destruct (d_archived r1), (d_archived r2); auto; apply name_leb_total.
Qed.

(** A list sorted by the ORDER BY key has its active rows first and each
    group sorted by name. *)
Lemma sorted_ordered_result rows :
  StronglySorted order_le rows -> ordered_result name_leb rows.
Proof.
  unfold ordered_result, active_rows, archived_rows.
  induction 1 as [|r rows Hs IH Hall]; [repeat split; constructor|].
  destruct IH as (Heq & Hact & Harch).
  destruct (d_archived r) eqn:Er.
  - (* an archived row: every later row is archived too *)
    assert (Hrest : Forall (fun x => d_archived x = true) rows).
    { eapply Forall_impl; [exact Hall|]. intros x. unfold order_le, order_leb.
      rewrite Er. destruct (d_archived x); congruence. }
    assert (Hnone : filter (fun x => d_archived x = false) rows = []).
    { clear -Hrest. induction Hrest as [|x l Hx _ IH]; [reflexivity|].
      rewrite filter_cons_False by congruence. exact IH. }
    rewrite filter_cons_False by congruence.
    rewrite filter_cons_True by exact Er.
    rewrite Hnone in *. simpl in *. split; [congruence|].
    split; [constructor|]. constructor; [exact Harch|].
    rewrite <- Heq. eapply Forall_impl; [exact Hall|].
    intros x. unfold order_le, order_leb. rewrite Er.
    destruct (d_archived x); congruence.
  - rewrite filter_cons_True by exact Er.
    rewrite filter_cons_False by congruence.
    split; [simpl; congruence|]. split; [|exact Harch].
    constructor; [exact Hact|].
    apply Forall_forall. intros x Hx.
    apply list_elem_of_filter in Hx as [Hx Hin].
    rewrite Forall_forall in Hall. apply Hall in Hin.
    unfold order_le, order_leb in Hin. rewrite Er, Hx in Hin. exact Hin.
Qed.

(** C5 (amended). The query with an empty search and all three filters at
    "All" returns every row of the table once, rows with archived = 0
    before rows with archived = 1, and each group in ascending order of
    name under byte-wise comparison (upper case before lower case), rows
    without a name first. *)
Theorem C5_query_all_sorted_binary (pets : gmap string pet) :
  let rows := select_pets "" "All" "All" "All" pets in
  rows ≡ₚ all_rows pets
  /\ (forall i p, pets !! i = Some p -> select_columns (i, p) ∈ rows)
  /\ ordered_result name_leb rows.
Proof.
  intros rows. unfold rows. rewrite select_pets_all.
  split; [apply merge_sort_Permutation|]. split.
  - intros i p Hp. rewrite merge_sort_Permutation. unfold all_rows.
    apply list_elem_of_fmap. exists (i, p). split; [reflexivity|].
    by apply elem_of_map_to_list.
  - apply sorted_ordered_result, StronglySorted_merge_sort; apply _.
Qed.

(** C5, as stated, fails: "Zed" is returned before "apple", which is not
    alphabetical when case is ignored. *)
Lemma C5_case_insensitive_counterexample :
  ~ query_all_case_insensitive mixed_case_pets.
Proof.
  unfold query_all_case_insensitive, ordered_result.
  intros (_ & _ & Hsorted & _).
  assert (Hrows : active_rows (select_pets "" "All" "All" "All" mixed_case_pets)
                  = [select_columns ("A2", sample_pet "Zed" false);
                     select_columns ("A1", sample_pet "apple" false)])
    by (vm_compute; reflexivity).
  rewrite Hrows in Hsorted.
  apply StronglySorted_inv in Hsorted as [_ Hall].
  apply Forall_inv in Hall. vm_compute in Hall. discriminate.
Qed.

(** The filters at work on the table that the scenario leaves after its
    second run: Rex active, Mia archived, both dogs. *)
Example like_samples :
  like "%ex%" "rex" = true /\ like "%ex%" "mia" = false
  /\ like "r_x" "rex" = true /\ like "r_x" "rx" = false
  /\ like "%" "" = true /\ lower "Rex-A1" = "rex-a1".
Proof. vm_compute. repeat split; reflexivity. Qed.

(** [_] stands for one character, not one byte: [r_x] matches the name
    written r, e with acute accent (bytes 195 and 169), x; and a NUL
    byte ends the pattern. *)
Example like_characters :
  let e_acute := String (ascii_of_nat 195) (String (ascii_of_nat 169) "") in
  utf8_chars ("r" ++ e_acute ++ "x") = [114; 233; 120]%N
  /\ like "r_x" ("r" ++ e_acute ++ "x") = true
  /\ like "r__x" ("r" ++ e_acute ++ "x") = false
  /\ like ("%x" ++ String (ascii_of_nat 0) "%") "rex" = true
  /\ like ("%e" ++ String (ascii_of_nat 0) "%") "rex" = false.
Proof. vm_compute. repeat split; reflexivity. Qed.

(** A search pattern of 50001 bytes is refused, one of 50000 is not. *)
Example like_pattern_limit :
  like_pattern_too_complex
    ("%" ++ string_of_list_ascii (replicate (N.to_nat 49999) "a"%char) ++ "%") = true
  /\ like_pattern_too_complex
       ("%" ++ string_of_list_ascii (replicate (N.to_nat 49998) "a"%char) ++ "%") = false.
Proof. vm_compute. split; reflexivity. Qed.

Example query_samples :
  let pets := db (sync_database second_run_world).2 in
  d_id <$> select_pets "" "All" "All" "Active" pets = ["A1"]
  /\ d_id <$> select_pets "" "All" "All" "Archived" pets = ["A2"]
  /\ d_id <$> select_pets "" "All" "All" "All" pets = ["A1"; "A2"]
  /\ d_id <$> select_pets "MI" "All" "All" "All" pets = ["A2"]
  /\ d_id <$> select_pets "a1" "dog" "All" "All" pets = ["A1"]
  /\ d_id <$> select_pets "" "Cat" "All" "All" pets = []
  /\ d_id <$> select_pets "" "All" "Male" "All" pets = [].
Proof. vm_compute. repeat split; reflexivity. Qed.

(** ** Buttons and worker threads *)

Lemma trigger_manual_sync_all_threads scheduled_job g :
  threads (trigger_manual_sync_all scheduled_job g) = S (threads g).
Proof. reflexivity. Qed.

(** As long as automatic sync is not used, the manual buttons are
    disabled for the time of a run, and runs do not overlap. *)
Lemma manual_session_one_run (events : list gui_event) :
  forallb manual_event events = true ->
  let g := gui_run events in
  sync_running g = false
  /\ pet_sync_job g = false
  /\ (threads g <= 1)%nat
  /\ (threads g = 1%nat ->
      btn_manual_sync_all g = disabled /\ btn_manual_gsheet_sync g = disabled)
  /\ (threads g = 0%nat ->
      btn_manual_sync_all g = normal /\ btn_manual_gsheet_sync g = normal).
Proof.
  unfold gui_run.
  induction events as [|e events IH] using rev_ind; intros Hev.
  - simpl. repeat split; auto; discriminate.
  - rewrite forallb_app in Hev. apply andb_true_iff in Hev as [Hev He].
    simpl in He. rewrite andb_true_r in He.
    rewrite foldl_snoc. specialize (IH Hev). simpl in IH.
    destruct IH as (Hrun & Hjob & Hle & Hbusy & Hidle).
    set (g := foldl gui_step initial_gui events) in *.
    assert (Hcases : threads g = 0%nat \/ threads g = 1%nat) by lia.
    destruct e; try discriminate; simpl.
    + (* Manual Sync All *)
      destruct Hcases as [H0|H1].
      * destruct (Hidle H0) as [-> _]. simpl. rewrite Hrun, H0. simpl.
        repeat split; auto; discriminate.
      * destruct (Hbusy H1) as [-> _]. simpl. auto.
    + (* Update GSheet Only *)
      destruct Hcases as [H0|H1].
      * destruct (Hidle H0) as [_ ->]. simpl. rewrite Hrun, H0. simpl.
        repeat split; auto; discriminate.
      * destruct (Hbusy H1) as [_ ->]. simpl. auto.
    + (* a worker thread ends *)
      unfold thread_finished.
      destruct Hcases as [H0|H1].
      * rewrite H0. auto.
      * rewrite H1. simpl. rewrite Hrun. simpl.
        repeat split; auto; discriminate.
Qed.

(** C4. Mutual exclusion of runs is broken in the window. Start Auto Sync
    followed by Stop Auto Sync leaves the initial run in flight with the
    Manual Sync All button enabled; a click then starts a second,
    concurrent run instead of being rejected. [trigger_manual_sync_all]
    itself starts a thread whenever it is called. *)
Theorem C4_second_run_after_stop_auto_sync :
  let g := gui_run [ClickStartAutoSync; ClickStopAutoSync] in
  threads g = 1%nat
  /\ btn_manual_sync_all g = normal
  /\ threads (gui_step g ClickManualSyncAll) = 2%nat
  /\ forall g', threads (trigger_manual_sync_all false g') = S (threads g').
Proof. vm_compute. repeat split; reflexivity. Qed.

(** ** The theorems at work on the sample data *)

Lemma C1_witness :
  snapshot_of outage_world = []
  /\ (sync_database outage_world).1 = Raise no_data
  /\ db (sync_database outage_world).2 = db outage_world.
Proof.
  split; [reflexivity|].
  destruct (C1_empty_snapshot_leaves_store outage_world) as (H1 & H2 & _);
    [reflexivity|].
  split; [exact H1|exact H2].
Defined.

Lemma C9_witness :
  parse_response (remote outage_world (fetches outage_world)) = []
  /\ fetches (sync_database outage_world).2 = 2%nat
  /\ (sync_database outage_world).1 = Raise no_data.
Proof.
  split; [reflexivity|].
  destruct (C9_retry_once_then_error outage_world) as (H1 & _ & H3);
    [reflexivity|].
  split; [exact H1|]. apply H3. reflexivity.
Defined.

Lemma C6_witness :
  snapshot_of second_run_world <> []
  /\ clock_reads (sync_database second_run_world).2
     = S (clock_reads second_run_world)
  /\ (exists p, db (sync_database second_run_world).2 !! "A1" = Some p
                /\ last_seen p = sync_time_of second_run_world)
  /\ (exists p, db (sync_database second_run_world).2 !! "A2" = Some p
                /\ archived p = true
                /\ last_seen p = sync_time_of second_run_world).
Proof.
  assert (Hne : snapshot_of second_run_world <> []) by (vm_compute; discriminate).
  split; [exact Hne|].
  destruct (C6_single_sync_timestamp second_run_world Hne) as (H1 & H2 & H3 & _).
  split; [exact H1|]. split.
  - apply H2. vm_compute. reflexivity.
  - apply (H3 "A2" (pet_row 1000 {| a_id := Some "A2"; a_name := Some "Mia";
                                     a_species := Some "Dog"; a_breed := None;
                                     a_sexSN := None; a_age := None;
                                     a_location := None; a_detail_id := None;
                                     a_photo_url := None |})).
    + vm_compute. discriminate.
    + vm_compute. reflexivity.
    + reflexivity.
Defined.

Lemma appears_in_sample_snapshot w i :
  bool_decide (i ∈ active_ids (snapshot_of w)) = true ->
  appears_in i (snapshot_of w).
Proof. intros H. apply appears_in_snapshot. by apply bool_decide_eq_true in H. Qed.

Lemma not_appears_in_sample_snapshot w i :
  bool_decide (i ∈ active_ids (snapshot_of w)) = false ->
  ~ appears_in i (snapshot_of w).
Proof.
  intros H Hin. apply appears_in_snapshot in Hin.
  apply bool_decide_eq_false in H. exact (H Hin).
Qed.

Lemma C2_witness :
  let w1 := (sync_database swap_world).2 in
  let w2 := (sync_database w1).2 in
  snapshot_of w1 <> []
  /\ (exists p, db w2 !! "A1" = Some p /\ archived p = true)
  /\ db w1 !! "A2" = None
  /\ (exists p, db w2 !! "A2" = Some p /\ archived p = false).
Proof.
  intros w1 w2.
  assert (Hne : snapshot_of w1 <> []) by (vm_compute; discriminate).
  split; [exact Hne|].
  destruct (C2_archival_correctness swap_world Hne) as [H1 H2].
  split.
  - apply H1.
    + apply appears_in_sample_snapshot. vm_compute. reflexivity.
    + apply not_appears_in_sample_snapshot. vm_compute. reflexivity.
  - apply H2.
    + apply appears_in_sample_snapshot. vm_compute. reflexivity.
    + apply not_appears_in_sample_snapshot. vm_compute. reflexivity.
    + reflexivity.
Defined.

Lemma C8_witness :
  exists p a p',
    db reappear_world !! "A2" = Some p /\ archived p = true
    /\ a ∈ snapshot_of reappear_world /\ a_id a = Some "A2"
    /\ db (sync_database reappear_world).2 !! "A2" = Some p'
    /\ archived p' = false /\ name p' = a_name a.
Proof.
  assert (exists p, db reappear_world !! "A2" = Some p /\ archived p = true)
    as (p & Hp & Harch) by (eexists; split; vm_compute; reflexivity).
  destruct (C8_reappearance reappear_world "A2" p Hp Harch)
    as (a & p' & Ha & Hid & Hp' & Harch' & Hname & _).
  { apply appears_in_sample_snapshot. vm_compute. reflexivity. }
  exists p, a, p'. repeat split; assumption.
Defined.

Lemma C7_witness :
  let w1 := (sync_database rex_world).2 in
  let w2 := (sync_database w1).2 in
  snapshot_of rex_world <> [] /\ snapshot_of w1 = snapshot_of rex_world
  /\ db w2 !! "A1" = with_last_seen (sync_time_of w1) <$> db w1 !! "A1"
  /\ db w2 !! "A2" = db w1 !! "A2".
Proof.
  intros w1 w2.
  assert (Hne : snapshot_of rex_world <> []) by (vm_compute; discriminate).
  assert (Hsame : snapshot_of w1 = snapshot_of rex_world) by reflexivity.
  split; [exact Hne|]. split; [exact Hsame|].
  destruct (C7_second_run_refreshes_last_seen_only rex_world Hne Hsame)
    as (H1 & H2 & _).
  split.
  - apply H1. apply appears_in_sample_snapshot. vm_compute. reflexivity.
  - apply H2. apply not_appears_in_sample_snapshot. vm_compute. reflexivity.
Defined.

Lemma C10_witness :
  pets_to_send_to_gsheet
    (sync_archived_to_gsheet (config archived_only_world))
    (select_pets "" "All" "All" "All" (db archived_only_world)) = []
  /\ gsheet_block archived_only_world = (Ok (true, true), archived_only_world)
  /\ update_google_sheet [] archived_only_world = (Ok true, archived_only_world).
Proof.
  assert (H : pets_to_send_to_gsheet
                (sync_archived_to_gsheet (config archived_only_world))
                (select_pets "" "All" "All" "All" (db archived_only_world)) = [])
    by (vm_compute; reflexivity).
  split; [exact H|].
  destruct (C10_empty_push_keeps_sheet archived_only_world) as [H1 H2].
  destruct (H2 H) as (any & Hrun & _).
  split; [|exact H1].
  rewrite Hrun. f_equal. f_equal. f_equal.
  apply (f_equal (fun r => match r.1 with Ok f => f.1 | Raise _ => true end)) in Hrun.
  vm_compute in Hrun. congruence.
Defined.

(** * Further properties of the engine *)

(** ** sync_database: ids, sizes and counters *)

Lemma dom_put_all t S pets :
  dom (foldl (put_animal t) pets S) = dom pets ∪ active_ids S.
Proof.
  apply set_eq. intros i. rewrite elem_of_union, !elem_of_dom.
  destruct (decide (i ∈ active_ids S)) as [Hi|Hi].
  - destruct (put_all_lookup_in t S pets i Hi) as (a & _ & _ & ->).
    split; eauto.
  - rewrite put_all_lookup_notin by exact Hi. tauto.
Qed.

Lemma dom_archive_missing t active pets :
  dom (archive_missing t active pets).1 = dom pets.
Proof.
  apply set_eq. intros i. rewrite !elem_of_dom, archive_missing_lookup.
  destruct (pets !! i); simpl; split; intros [x Hx]; eauto; discriminate.
Qed.

Lemma dom_reconcile t S pets :
  dom (reconcile t S pets).1 = dom pets ∪ active_ids S.
Proof.
  rewrite reconcile_table. destruct (bool_decide _).
  - rewrite dom_archive_missing. apply dom_put_all.
  - apply dom_put_all.
Qed.

Lemma foldl_upsert_size t S acc :
  (size (foldl (upsert t) acc S).1.1 + acc.2
   = size acc.1.1 + (foldl (upsert t) acc S).2)%nat.
Proof.
  revert acc. induction S as [|a S IH]; intros acc; simpl; [lia|].
  specialize (IH (upsert t acc a)).
  destruct acc as [[pets u] n]. unfold upsert in *. simpl in *.
  destruct (valid_id a) as [i|]; [|exact IH].
  destruct (pets !! i) as [p|] eqn:Ep; simpl in IH.
  - rewrite map_size_insert_Some in IH by (rewrite Ep; eauto). exact IH.
  - rewrite map_size_insert_None in IH by exact Ep. lia.
Qed.

Lemma size_reconcile t S pets :
  size (reconcile t S pets).1
  = (size pets + inserted_count (reconcile t S pets).2)%nat.
Proof.
  rewrite reconcile_inserted.
  pose proof (foldl_upsert_size t S (pets, 0%nat, 0%nat)) as H. simpl in H.
  rewrite foldl_upsert_table in H. simpl in H.
  rewrite <- (size_dom (reconcile t S pets).1), dom_reconcile.
  rewrite <- dom_put_all with (t := t), size_dom. lia.
Qed.

Lemma archived_count_vanished t S pets :
  active_ids S <> ∅ ->
  archived_count (reconcile t S pets).2 = size (vanished (active_ids S) pets).
Proof.
  intros Hact. rewrite reconcile_archived, bool_decide_eq_true_2 by exact Hact.
  unfold archive_missing, vanished. simpl. f_equal.
  apply map_eq. intros i. apply option_eq. intros x.
  rewrite !map_lookup_filter_Some. simpl. unfold to_archive.
  destruct (decide (i ∈ active_ids S)) as [Hi|Hi].
  - rewrite bool_decide_eq_false_2 by auto. simpl.
    split; [intros [_ ?]; discriminate|intros [_ [? _]]; contradiction].
  - rewrite put_all_lookup_notin by exact Hi.
    rewrite bool_decide_eq_true_2 by exact Hi. simpl.
    rewrite negb_true_iff. tauto.
Qed.

(** X1. No run deletes a row: every id of the table is still in the table
    after [sync_database], whether it succeeds or raises; after a success
    the ids of the table are the old ids together with the ids of the
    snapshot. *)
Theorem sync_database_never_deletes (w : World) :
  dom (db w) ⊆ dom (db (sync_database w).2)
  /\ (is_empty (snapshot_of w) = false ->
      dom (db (sync_database w).2) = dom (db w) ∪ active_ids (snapshot_of w)).
Proof.
  rewrite sync_database_db. destruct (is_empty (snapshot_of w)).
  - split; [reflexivity|discriminate].
  - rewrite dom_reconcile. split; [set_solver|reflexivity].
Qed.

Lemma snapshot_all_counted w :
  length (omap valid_id (snapshot_of w)) = length (snapshot_of w).
Proof.
  pose proof (snapshot_valid w) as Hv.
  induction (snapshot_of w) as [|a S IH]; [reflexivity|].
  simpl. rewrite (valid_id_truthy a) by (apply Hv; left).
  destruct (truthy_is_Some _ (Hv a ltac:(left))) as [i ->]. simpl.
  f_equal. apply IH. intros b Hb. apply Hv. by right.
Qed.

(** X2. The counters of a successful run: every fetched record is counted
    once, as an insert or as an update; the inserts are the distinct ids of
    the snapshot that the table did not have, and the table grows by that
    number; the archived count is the number of rows that were not archived
    and are not in the snapshot. *)
Theorem sync_database_counters (w : World) (c : sync_counts) :
  (sync_database w).1 = Ok c ->
  (inserted_count c + updated_count c = length (snapshot_of w))%nat
  /\ inserted_count c = size (active_ids (snapshot_of w) ∖ dom (db w))
  /\ size (db (sync_database w).2) = (size (db w) + inserted_count c)%nat
  /\ archived_count c = size (vanished (active_ids (snapshot_of w)) (db w)).
Proof.
  intros Hok.
  assert (Hne : snapshot_of w <> []).
  { intros He. rewrite (sync_database_empty w He) in Hok. discriminate. }
  rewrite (sync_database_ok w Hne) in Hok. simpl in Hok.
  injection Hok as <-.
  rewrite sync_database_db_ok by exact Hne.
  pose proof (snapshot_active_nonempty w Hne) as Hact.
  pose proof (snapshot_all_counted w) as Hlen.
  set (t := sync_time_of w). set (S := snapshot_of w) in *.
  pose proof (size_reconcile t S (db w)) as Hsize.
  split; [|split; [|split]].
  - pose proof (foldl_upsert_counts t S (db w, 0%nat, 0%nat)) as H.
    rewrite <- reconcile_inserted, <- reconcile_updated in H.
    simpl in H. lia.
  - rewrite <- (size_dom (reconcile t S (db w)).1) in Hsize.
    rewrite dom_reconcile, size_union_alt, size_dom in Hsize. lia.
  - exact Hsize.
  - apply archived_count_vanished. exact Hact.
Qed.

(** X3. After a successful run the archived flag tells who is listed: a
    row is not archived exactly when its id is in the snapshot of the
    run. *)
Theorem sync_database_archived_iff_absent (w : World) (i : string) (p : pet) :
  snapshot_of w <> [] ->
  db (sync_database w).2 !! i = Some p ->
  (archived p = false <-> appears_in i (snapshot_of w)).
Proof.
  intros Hne Hp. rewrite sync_database_db_ok in Hp by exact Hne.
  pose proof (snapshot_active_nonempty w Hne) as Hact.
  rewrite appears_in_snapshot.
  destruct (decide (i ∈ active_ids (snapshot_of w))) as [Hi|Hi].
  - destruct (reconcile_lookup_active (sync_time_of w) _ (db w) i Hi)
      as (a & _ & _ & Hl).
    rewrite Hl in Hp. injection Hp as <-. simpl. tauto.
  - rewrite (reconcile_lookup_missing _ _ _ _ Hact Hi) in Hp.
    destruct (db w !! i) as [q|]; [|discriminate]. simpl in Hp.
    injection Hp as <-. rewrite archive_if_active_archived.
    split; [discriminate|contradiction].
Qed.

(** ** fetch_animals *)

Lemma parse_item_id it a : parse_item it = Some a ->
  exists i, it = Item i /\ a_id a = item_id i /\ truthy (item_id i) = true
            /\ (a_photo_url a = None \/ truthy (a_photo_url a) = true).
Proof.
  destruct it as [|i]; simpl; [discriminate|].
  destruct (truthy (item_id i)) eqn:E; simpl; [|discriminate].
  intros [= <-]. exists i. simpl. repeat split; auto.
  destruct (truthy (item_photo_src i)) eqn:Ep; auto.
Qed.

(** X4. When the request succeeds, [fetch_animals] returns the records of
    the items that parse and carry a non-empty pet id, in page order: the
    ids returned are the non-empty ids of the page, and a photo URL is
    either None or non-empty. *)
Theorem fetch_animals_page (w : World) (items : list soup_item) :
  remote w (fetches w) = Page items ->
  exists animals,
    (fetch_animals w).1 = Ok animals
    /\ a_id <$> animals = filter (fun o => truthy o = true) (item_ids items)
    /\ Forall (fun a => a_photo_url a = None \/ truthy (a_photo_url a) = true)
              animals.
Proof.
  intros Hpage. unfold fetch_animals. simpl. rewrite Hpage. simpl.
  eexists. split; [reflexivity|]. unfold item_ids. split.
  - clear Hpage. induction items as [|it items IH]; [reflexivity|]. simpl.
    destruct it as [|i]; simpl; [exact IH|].
    destruct (truthy (item_id i)) eqn:E; simpl.
    + rewrite filter_cons_True by exact E. simpl. f_equal. exact IH.
    + rewrite filter_cons_False by congruence. exact IH.
  - apply Forall_forall. intros a Ha.
    apply list_elem_of_omap in Ha as (it & _ & Hit).
    destruct (parse_item_id _ _ Hit) as (i & _ & _ & _ & Hp). exact Hp.
Qed.

(** ** fetch_filtered_pets_from_db *)

Lemma elem_of_select_pets s sp sx ar pets r :
  r ∈ select_pets s sp sx ar pets <->
  exists i p, pets !! i = Some p /\ where_clause s sp sx ar i p = true
              /\ r = select_columns (i, p).
Proof.
  unfold select_pets. rewrite merge_sort_Permutation, list_elem_of_fmap.
  split.
  - intros ([i p] & -> & Hin). apply list_elem_of_filter in Hin as [Hw Hin].
    apply elem_of_map_to_list in Hin. exists i, p. auto.
  - intros (i & p & Hp & Hw & ->). exists (i, p). split; [reflexivity|].
    apply list_elem_of_filter. split; [exact Hw|].
    by apply elem_of_map_to_list.
Qed.

Lemma NoDup_select_pets_ids s sp sx ar pets :
  NoDup (d_id <$> select_pets s sp sx ar pets).
Proof.
  unfold select_pets. rewrite merge_sort_Permutation.
  rewrite <- list_fmap_compose.
  eapply (sublist_NoDup _ ((map_to_list pets).*1)).
  - apply NoDup_fst_map_to_list.
  - apply (fmap_sublist fst). apply sublist_filter.
Qed.

(** The result of the query: nothing when the search pattern is too
    long, the selected rows otherwise. The table is only read. *)
Lemma fetch_filtered_pets_from_db_run s sp sx ar w :
  fetch_filtered_pets_from_db s sp sx ar w
  = (Ok (if negb (String.eqb s "")
            && like_pattern_too_complex ("%" ++ s ++ "%")
         then [] else select_pets s sp sx ar (db w)), w).
Proof.
  unfold fetch_filtered_pets_from_db, execute_query, try_except, bind, gets,
    ret, raise.
  cbv beta iota zeta.
  destruct (negb (String.eqb s "") && like_pattern_too_complex _);
    [|reflexivity].
  cbn [andb]. unfold select_pets.
  destruct (map_to_list (db w)) as [|ip l]; reflexivity.
Qed.

Lemma length_append (a b : string) :
  String.length (a ++ b) = (String.length a + String.length b)%nat.
Proof.
  induction a as [|c a IH]; [reflexivity|]. simpl. by rewrite IH.
Qed.

Lemma too_complex_within term :
  like_pattern_too_complex ("%" ++ term ++ "%") = negb (within_like_limit term).
Proof.
  unfold like_pattern_too_complex, within_like_limit.
  change ("%" ++ term ++ "%") with (String "%" (term ++ "%")).
  simpl String.length. rewrite length_append. simpl String.length.
  destruct (N.ltb_spec SQLITE_MAX_LIKE_PATTERN_LENGTH
              (N.of_nat (S (String.length term + 1))));
    destruct (N.leb_spec (N.of_nat (String.length term) + 2)
                SQLITE_MAX_LIKE_PATTERN_LENGTH);
    simpl; try reflexivity; lia.
Qed.

(** X5. The query never raises and only reads: whatever the filters, the
    function returns a list and leaves the world as it is. No id occurs
    twice in the list and every element is a row of the table. With a
    search pattern longer than SQLite's bound of 50000 bytes the error
    of the statement is swallowed and the list is empty, whatever the
    table holds. *)
Theorem fetch_filtered_pets_never_raises
    (search_term species_filter sex_filter archived_filter : string)
    (w : World) :
  exists rows,
    fetch_filtered_pets_from_db search_term species_filter sex_filter
      archived_filter w = (Ok rows, w)
    /\ NoDup (d_id <$> rows)
    /\ (forall r, r ∈ rows ->
          exists p, db w !! d_id r = Some p /\ r = select_columns (d_id r, p))
    /\ (search_term <> "" -> within_like_limit search_term = false ->
        rows = []).
Proof.
  eexists. split; [apply fetch_filtered_pets_from_db_run|].
  rewrite too_complex_within.
  destruct (negb (String.eqb search_term "")
            && negb (within_like_limit search_term)) eqn:E.
  - split; [constructor|]. split; [|reflexivity].
    intros r Hr. by apply elem_of_nil in Hr.
  - split; [apply NoDup_select_pets_ids|]. split.
    + intros r Hr. apply elem_of_select_pets in Hr as (i & p & Hp & _ & ->).
      exists p. auto.
    + intros Hne Hbig. apply String.eqb_neq in Hne.
      rewrite Hne, Hbig in E. discriminate.
Qed.

Lemma select_pets_ordered s sp sx ar pets :
  ordered_result name_leb (select_pets s sp sx ar pets).
Proof.
  apply sorted_ordered_result. unfold select_pets.
  apply StronglySorted_merge_sort; apply _.
Qed.

(** X6. Whatever the filters, the result is ordered: rows with
    archived = 0 before rows with archived = 1, each group in ascending
    byte order of name with missing names first. *)
Theorem fetch_filtered_pets_ordered
    (search_term species_filter sex_filter archived_filter : string)
    (w : World) :
  exists rows,
    (fetch_filtered_pets_from_db search_term species_filter sex_filter
       archived_filter w).1 = Ok rows
    /\ ordered_result name_leb rows.
Proof.
  eexists. split; [rewrite fetch_filtered_pets_from_db_run; reflexivity|].
  destruct (negb _ && _); [|apply select_pets_ordered].
  split; [reflexivity|]. split; constructor.
Qed.

Lemma select_pets_ext s1 sp1 sx1 ar1 s2 sp2 sx2 ar2 pets :
  (forall i p, where_clause s1 sp1 sx1 ar1 i p = where_clause s2 sp2 sx2 ar2 i p) ->
  select_pets s1 sp1 sx1 ar1 pets = select_pets s2 sp2 sx2 ar2 pets.
Proof.
  intros H. unfold select_pets. f_equal. f_equal.
  apply list_filter_iff. intros [i p]. simpl. rewrite H. reflexivity.
Qed.

Lemma where_clause_active s sp sx i p :
  where_clause s sp sx "Active" i p
  = where_clause s sp sx "All" i p && negb (archived p).
Proof. unfold where_clause. simpl. rewrite andb_true_r. reflexivity. Qed.

Lemma where_clause_archived s sp sx i p :
  where_clause s sp sx "Archived" i p
  = where_clause s sp sx "All" i p && archived p.
Proof. unfold where_clause. simpl. rewrite andb_true_r. reflexivity. Qed.

Lemma NoDup_select_pets s sp sx ar pets : NoDup (select_pets s sp sx ar pets).
Proof. eapply NoDup_fmap_1, NoDup_select_pets_ids. Qed.

(** X7. The status filter: "Active" returns rows with archived = 0 only,
    "Archived" rows with archived = 1 only, and each returns exactly the
    rows of that kind that the same query returns with status "All". *)
Theorem archived_filter_partitions
    (search_term species_filter sex_filter : string) (pets : gmap string pet) :
  let all := select_pets search_term species_filter sex_filter "All" pets in
  let active := select_pets search_term species_filter sex_filter "Active" pets in
  let gone := select_pets search_term species_filter sex_filter "Archived" pets in
  Forall (fun r => d_archived r = false) active
  /\ Forall (fun r => d_archived r = true) gone
  /\ active ≡ₚ active_rows all
  /\ gone ≡ₚ archived_rows all
  /\ length all = (length active + length gone)%nat.
Proof.
  intros all active gone.
  assert (Hact : active ≡ₚ active_rows all).
  { apply NoDup_Permutation.
    - apply NoDup_select_pets.
    - apply NoDup_filter, NoDup_select_pets.
    - intros r. unfold active_rows, active, all.
      rewrite list_elem_of_filter, !elem_of_select_pets. split.
      + intros (i & p & Hp & Hw & ->). rewrite where_clause_active in Hw.
        apply andb_true_iff in Hw as [Hw Ha]. apply negb_true_iff in Ha.
        split; [exact Ha|]. exists i, p. auto.
      + intros (Ha & i & p & Hp & Hw & ->). exists i, p.
        rewrite where_clause_active, Hw. simpl in Ha. rewrite Ha. auto. }
  assert (Hgone : gone ≡ₚ archived_rows all).
  { apply NoDup_Permutation.
    - apply NoDup_select_pets.
    - apply NoDup_filter, NoDup_select_pets.
    - intros r. unfold archived_rows, gone, all.
      rewrite list_elem_of_filter, !elem_of_select_pets. split.
      + intros (i & p & Hp & Hw & ->). rewrite where_clause_archived in Hw.
        apply andb_true_iff in Hw as [Hw Ha].
        split; [exact Ha|]. exists i, p. auto.
      + intros (Ha & i & p & Hp & Hw & ->). exists i, p.
        rewrite where_clause_archived, Hw. simpl in Ha. rewrite Ha. auto. }
  split; [|split; [|split; [exact Hact|split; [exact Hgone|]]]].
  - rewrite Hact. apply Forall_forall. intros r Hr.
    by apply list_elem_of_filter in Hr as [Hr _].
  - rewrite Hgone. apply Forall_forall. intros r Hr.
    by apply list_elem_of_filter in Hr as [Hr _].
  - rewrite Hact, Hgone.
    destruct (select_pets_ordered search_term species_filter
                sex_filter "All" pets) as [Heq _].
    fold all in Heq. rewrite Heq at 1. apply length_app.
Qed.

(** X8. Filter values that select nothing: an empty species or sex filter
    acts like "All", and so does any status other than "Active" and
    "Archived". *)
Theorem neutral_filter_values
    (search_term species_filter sex_filter archived_filter : string)
    (pets : gmap string pet) :
  select_pets search_term "" sex_filter archived_filter pets
  = select_pets search_term "All" sex_filter archived_filter pets
  /\ select_pets search_term species_filter "" archived_filter pets
     = select_pets search_term species_filter "All" archived_filter pets
  /\ (archived_filter <> "Active" -> archived_filter <> "Archived" ->
      select_pets search_term species_filter sex_filter archived_filter pets
      = select_pets search_term species_filter sex_filter "All" pets).
Proof.
  split; [|split].
  - apply select_pets_ext. intros i p. reflexivity.
  - apply select_pets_ext. intros i p. unfold where_clause. simpl.
    reflexivity.
  - intros H1 H2. apply select_pets_ext. intros i p. unfold where_clause.
    apply String.eqb_neq in H1, H2. rewrite H1, H2. reflexivity.
Qed.

(** *** Case folding *)

Lemma lower_ascii_idem c : lower_ascii (lower_ascii c) = lower_ascii c.
Proof. destruct c as [[] [] [] [] [] [] [] []]; reflexivity. Qed.

Lemma lower_ascii_wildcard c :
  Ascii.eqb (lower_ascii c) "%" = Ascii.eqb c "%"
  /\ Ascii.eqb (lower_ascii c) "_" = Ascii.eqb c "_".
Proof. destruct c as [[] [] [] [] [] [] [] []]; split; reflexivity. Qed.

Lemma lower_app (a b : string) : lower (a ++ b) = lower a ++ lower b.
Proof. induction a as [|c a IH]; [reflexivity|]. simpl. by rewrite IH. Qed.

Lemma lower_empty s : String.eqb (lower s) "" = String.eqb s "".
Proof. destruct s; reflexivity. Qed.


Lemma search_like_lower s : lower ("%" ++ s ++ "%") = "%" ++ lower s ++ "%".
Proof. rewrite !lower_app. reflexivity. Qed.

Lemma lower_like_case col s1 s2 :
  lower s1 = lower s2 ->
  lower_like col ("%" ++ s1 ++ "%") = lower_like col ("%" ++ s2 ++ "%").
Proof.
  intros H. unfold lower_like. destruct col; [|reflexivity].
  rewrite !search_like_lower, H. reflexivity.
Qed.

Lemma eqb_lower_case (s1 s2 : string) :
  lower s1 = lower s2 -> String.eqb s1 "" = String.eqb s2 "".
Proof. intros H. rewrite <- (lower_empty s1), <- (lower_empty s2), H. reflexivity. Qed.

(** X9. Search and filters ignore the case of ASCII letters: two search
    terms that differ in case only give the same result, and so do two
    species filters or two sex filters, provided neither is the literal
    "All". *)
Theorem query_ignores_case (s1 s2 sp1 sp2 sx1 sx2 ar : string)
    (pets : gmap string pet) :
  lower s1 = lower s2 ->
  lower sp1 = lower sp2 -> sp1 <> "All" -> sp2 <> "All" ->
  lower sx1 = lower sx2 -> sx1 <> "All" -> sx2 <> "All" ->
  select_pets s1 sp1 sx1 ar pets = select_pets s2 sp2 sx2 ar pets.
Proof.
  intros Hs Hsp Hsp1 Hsp2 Hsx Hsx1 Hsx2.
  apply select_pets_ext. intros i p. unfold where_clause.
  rewrite (eqb_lower_case s1 s2 Hs), (eqb_lower_case sp1 sp2 Hsp),
    (eqb_lower_case sx1 sx2 Hsx).
  apply String.eqb_neq in Hsp1, Hsp2, Hsx1, Hsx2.
  rewrite Hsp1, Hsp2, Hsx1, Hsx2. cbv zeta.
  rewrite !(lower_like_case _ s1 s2 Hs).
  unfold lower_eq. rewrite Hsp, Hsx. reflexivity.
Qed.

(** *** LIKE with a leading and a trailing [%] *)


Lemma append_cons c (a b : string) : String c a ++ b = String c (a ++ b).
Proof. reflexivity. Qed.

(** The matcher on characters. *)
Lemma patternCompare_percent_unfold p s :
  patternCompare (37%N :: p) s
  = patternCompare p s || match s with
                          | [] => false
                          | _ :: s' => patternCompare (37%N :: p) s'
                          end.
Proof. destruct s; reflexivity. Qed.

Lemma patternCompare_percent_split p s :
  patternCompare (37%N :: p) s = true
  <-> exists a b, s = (a ++ b)%list /\ patternCompare p b = true.
Proof.
  induction s as [|c s IH]; rewrite patternCompare_percent_unfold, orb_true_iff.
  - split.
    + intros [H|H]; [|discriminate]. exists [], []. auto.
    + intros (a & b & Hab & H). left.
      symmetry in Hab. apply app_eq_nil in Hab as [_ ->]. exact H.
  - rewrite IH. split.
    + intros [H|(a & b & -> & H)].
      * exists [], (c :: s). auto.
      * exists (c :: a), b. auto.
    + intros (a & b & Hab & H). destruct a as [|d a].
      * left. simpl in Hab. by subst b.
      * right. simpl in Hab. injection Hab as -> ->. eauto.
Qed.

Lemma patternCompare_only_percent s : patternCompare [37%N] s = true.
Proof.
  apply patternCompare_percent_split. exists s, []. by rewrite app_nil_r.
Qed.

Lemma patternCompare_all_percent p s :
  p <> [] -> Forall (fun c => c = 37%N) p -> patternCompare p s = true.
Proof.
  revert s. induction p as [|c p IH]; intros s Hne Hp; [congruence|].
  apply Forall_cons in Hp as [-> Hp].
  destruct p as [|d p]; [apply patternCompare_only_percent|].
  apply patternCompare_percent_split.
  exists [], s. split; [reflexivity|]. apply IH; [discriminate|exact Hp].
Qed.





















Lemma all_percent_app (a b : string) :
  all_percent (a ++ b) = all_percent a && all_percent b.
Proof.
  induction a as [|c a IH]; [reflexivity|]. rewrite append_cons. simpl.
  rewrite IH, andb_assoc. reflexivity.
Qed.

Lemma all_percent_lower s : all_percent (lower s) = all_percent s.
Proof.
  induction s as [|c s IH]; [reflexivity|]. simpl.
  destruct (lower_ascii_wildcard c) as [-> _]. by rewrite IH.
Qed.

Lemma utf8_chars_all_percent s :
  all_percent s = true -> Forall (fun c => c = 37%N) (utf8_chars s).
Proof.
  induction s as [|c s IH]; intros H; [constructor|].
  simpl in H. apply andb_true_iff in H as [Hc H].
  apply Ascii.eqb_eq in Hc. subst c.
  change (utf8_chars (String "%" s)) with (37%N :: utf8_chars s).
  constructor; [reflexivity|by apply IH].
Qed.

Lemma like_all_percent p s :
  p <> "" -> all_percent p = true -> like p s = true.
Proof.
  intros Hne Hp. unfold like. apply patternCompare_all_percent.
  - destruct p as [|c p]; [congruence|].
    simpl in Hp. apply andb_true_iff in Hp as [Hc _].
    apply Ascii.eqb_eq in Hc. subst c. discriminate.
  - by apply utf8_chars_all_percent.
Qed.

Lemma select_pets_all_percent term sp sx ar pets :
  term <> "" -> all_percent term = true ->
  select_pets term sp sx ar pets = select_pets "" sp sx ar pets.
Proof.
  intros Hne Hp. apply select_pets_ext. intros i p. unfold where_clause.
  apply String.eqb_neq in Hne. rewrite Hne. simpl negb. cbv iota zeta.
  assert (Hid : lower_like (Some i) ("%" ++ term ++ "%") = true).
  { unfold lower_like. apply like_all_percent.
    - rewrite search_like_lower. discriminate.
    - rewrite all_percent_lower, !all_percent_app, Hp. reflexivity. }
  rewrite Hid. reflexivity.
Qed.

(** X11. The wildcards of the search term are not escaped: a term made
    of [%] characters matches every row, so the query returns what it
    returns without a search term, as long as the pattern is within
    SQLite's bound of 50000 bytes. Beyond the bound the query fails and
    the function returns no row. *)
Theorem percent_search_matches_all (term sp sx ar : string) (w : World) :
  term <> "" -> all_percent term = true ->
  fetch_filtered_pets_from_db term sp sx ar w
  = if within_like_limit term
    then fetch_filtered_pets_from_db "" sp sx ar w
    else (Ok [], w).
Proof.
  intros Hne Hp. rewrite !fetch_filtered_pets_from_db_run.
  rewrite too_complex_within. pose proof Hne as Hne'.
  apply String.eqb_neq in Hne'. rewrite Hne'. simpl negb. cbn [andb].
  destruct (within_like_limit term); simpl; [|reflexivity].
  rewrite (select_pets_all_percent term sp sx ar (db w) Hne Hp).
  reflexivity.
Qed.

(** ** update_google_sheet and the sheet block *)




(** ** The full run, stage by stage *)



(** The run in which [sync_database] raises. *)
Lemma perform_sync_failed tx w :
  snapshot_of (started w) = [] \/ tx <> Commits ->
  let r := _perform_sync_and_update_all tx w in
  r.1 = Ok (if is_empty (snapshot_of (started w)) then FetchFailedLambda
            else match tx with
                 | RaisesSqlite3Error => LocalDbFailedLambda
                 | _ => UnexpectedFailure
                 end)
  /\ db r.2 = db w /\ sheet r.2 = sheet w /\ config r.2 = config w
  /\ gsheet_calls r.2 = gsheet_calls w
  /\ db_sync_ok_of tx w = false /\ gsheet_update_ok_of tx w = false.
Proof.
  intros Hfail r.
  unfold r, gsheet_update_ok_of, db_sync_ok_of, _perform_sync_and_update_all,
    try_except, bind, now.
  simpl. change (set_clock_reads (S (clock_reads w)) w) with (started w).
  destruct (snapshot_of (started w)) as [|a S] eqn:E.
  - rewrite (sync_database_with_empty tx _ E). simpl.
    repeat split; reflexivity.
  - assert (Hne : snapshot_of (started w) <> []) by (rewrite E; discriminate).
    destruct Hfail as [Hfail|Htx]; [discriminate|].
    rewrite (sync_database_with_raises tx _ Hne Htx). simpl.
    destruct tx; [congruence| |]; simpl; repeat split; reflexivity.
Qed.








(** X13. When [sync_database] raises, because nothing is fetched after
    the retry or because the transaction does not commit, the full run
    touches nothing: the table, the sheet and the settings are as before
    and the sheet API is not called. After a fetch failure or an SQLite
    error the status is queued as a lambda that reads the handler's [e]:
    called once the handler has ended, it shows nothing. After any other
    exception the message is built in the handler and is shown as an
    error. *)
Theorem perform_sync_failure_touches_nothing (tx : transaction) (w : World) :
  snapshot_of (started w) = [] \/ tx <> Commits ->
  let r := _perform_sync_and_update_all tx w in
  db r.2 = db w /\ sheet r.2 = sheet w /\ config r.2 = config w
  /\ gsheet_calls r.2 = gsheet_calls w
  /\ exists s,
       r.1 = Ok s
       /\ (snapshot_of (started w) = [] -> s = FetchFailedLambda)
       /\ (snapshot_of (started w) <> [] -> tx = RaisesSqlite3Error ->
           s = LocalDbFailedLambda)
       /\ (snapshot_of (started w) <> [] -> tx = RaisesException ->
           s = UnexpectedFailure)
       /\ (s <> UnexpectedFailure ->
           run_status_callback true s = None
           /\ run_status_callback false s = Some (s, true))
       /\ (s = UnexpectedFailure ->
           forall handler_ended,
             run_status_callback handler_ended s = Some (s, true)).
Proof.
  intros Hfail r.
  destruct (perform_sync_failed tx w Hfail)
    as (Hr & Hdb & Hsheet & Hcfg & Hcalls & _).
  fold r in Hr, Hdb, Hsheet, Hcfg, Hcalls.
  split; [exact Hdb|]. split; [exact Hsheet|]. split; [exact Hcfg|].
  split; [exact Hcalls|].
  eexists. split; [exact Hr|].
  destruct (snapshot_of (started w)) as [|a S] eqn:E; simpl.
  - split; [reflexivity|]. split; [congruence|]. split; [congruence|].
    split; [intros _; split; reflexivity|discriminate].
  - destruct Hfail as [Hfail|Htx]; [discriminate|].
    split; [discriminate|].
    destruct tx; [congruence| |].
    + split; [reflexivity|]. split; [discriminate|].
      split; [intros _; split; reflexivity|discriminate].
    + split; [discriminate|]. split; [reflexivity|].
      split; [congruence|]. intros _ []; reflexivity.
Qed.


(** ** The sheet-only run *)




(** ** The window: buttons, scheduler, threads *)

Lemma update_button_states_consistent b g :
  pet_sync_job g = sync_running g -> gui_consistent (update_button_states b g).
Proof.
  intros H. split; [exact H|]. exists b. simpl. auto.
Qed.

Lemma start_thread_consistent g :
  gui_consistent g -> gui_consistent (start_thread g).
Proof. intros H. exact H. Qed.

Lemma gui_step_consistent g e :
  gui_consistent g -> gui_consistent (gui_step g e).
Proof.
  intros Hg. pose proof Hg as [Hjob _].
  destruct e; simpl; unfold click.
  - destruct (btn_start_sync g); [|exact Hg]. unfold start_auto_sync.
    destruct (sync_running g) eqn:Er; [exact Hg|]. simpl.
    by apply update_button_states_consistent.
  - destruct (btn_stop_sync g); [|exact Hg]. unfold stop_auto_sync.
    destruct (sync_running g) eqn:Er; [|exact Hg]. simpl.
    by apply update_button_states_consistent.
  - destruct (btn_manual_sync_all g); [|exact Hg].
    apply start_thread_consistent.
    by apply update_button_states_consistent.
  - destruct (btn_manual_gsheet_sync g); [|exact Hg].
    apply start_thread_consistent.
    by apply update_button_states_consistent.
  - destruct (pet_sync_job g); [|exact Hg]. exact Hg.
  - unfold thread_finished. destruct (threads g); [exact Hg|].
    by apply update_button_states_consistent.
Qed.

Lemma gui_run_consistent events : gui_consistent (gui_run events).
Proof.
  unfold gui_run. induction events as [|e events IH] using rev_ind.
  - by apply update_button_states_consistent.
  - rewrite foldl_snoc. by apply gui_step_consistent.
Qed.

(** X17. In every state the window can reach: the scheduler holds the
    hourly job exactly while automatic sync is on; Start Auto Sync and the
    two manual buttons are enabled or disabled together; Start and Stop are
    never both enabled; while automatic sync is on Start and the manual
    buttons are disabled, and while it is off Stop is disabled. *)
Theorem gui_buttons_consistent (events : list gui_event) :
  let g := gui_run events in
  pet_sync_job g = sync_running g
  /\ btn_manual_sync_all g = btn_start_sync g
  /\ btn_manual_gsheet_sync g = btn_start_sync g
  /\ ~ (btn_start_sync g = normal /\ btn_stop_sync g = normal)
  /\ (sync_running g = true -> btn_start_sync g = disabled)
  /\ (sync_running g = false -> btn_stop_sync g = disabled).
Proof.
  intros g. destruct (gui_run_consistent events)
    as (Hjob & op & Hstart & Hstop & Hm1 & Hm2).
  fold g in Hjob, Hstart, Hstop, Hm1, Hm2.
  split; [exact Hjob|]. split; [exact Hm1|]. split; [exact Hm2|].
  rewrite Hstart, Hstop.
  destruct (sync_running g), op; simpl; repeat split;
    try discriminate; try reflexivity; intros [? ?]; discriminate.
Qed.

(** X18. The hourly job does not look at the runs in flight: after Start
    Auto Sync, [k] firings of the scheduler with no run finishing in
    between leave [k + 1] runs in flight. *)
Theorem scheduler_runs_overlap (k : nat) :
  threads (gui_run (ClickStartAutoSync :: replicate k SchedulerFires)) = S k.
Proof.
  unfold gui_run.
  change (foldl gui_step initial_gui
            (ClickStartAutoSync :: replicate k SchedulerFires))
    with (foldl gui_step (gui_step initial_gui ClickStartAutoSync)
            (replicate k SchedulerFires)).
  set (g0 := gui_step initial_gui ClickStartAutoSync).
  assert (H : threads (foldl gui_step g0 (replicate k SchedulerFires)) = S k
              /\ pet_sync_job (foldl gui_step g0 (replicate k SchedulerFires))
                 = true).
  { induction k as [|k [IHt IHj]]; [split; reflexivity|].
    rewrite replicate_S_end, foldl_snoc.
    unfold gui_step at 1 3. rewrite IHj.
    unfold _scheduled_sync_all_task, start_thread. simpl.
    rewrite IHt, IHj. auto. }
  exact (proj1 H).
Qed.

(** X19. No command of the window ends a run: the number of runs in
    flight goes down only when a worker thread finishes, and then by
    one. *)
Theorem only_thread_end_lowers_threads (g : Gui) (e : gui_event) :
  (e <> ThreadFinishes -> (threads g <= threads (gui_step g e))%nat)
  /\ threads (gui_step g ThreadFinishes) = pred (threads g).
Proof.
  split.
  - intros He. destruct e; simpl; unfold click; try congruence.
    + destruct (btn_start_sync g); [|lia]. unfold start_auto_sync.
      destruct (sync_running g); simpl; lia.
    + destruct (btn_stop_sync g); [|lia]. unfold stop_auto_sync.
      destruct (sync_running g); simpl; lia.
    + destruct (btn_manual_sync_all g); simpl; lia.
    + destruct (btn_manual_gsheet_sync g); simpl; lia.
    + destruct (pet_sync_job g); simpl; lia.
  - simpl. unfold thread_finished.
    destruct (threads g) eqn:E; simpl; [rewrite E|]; reflexivity.
Qed.

(** ** The log buffer *)

Lemma emit_latest (entries : list string) (e : string) :
  emit (drop (length entries - LOG_BUFFER_MAX_LINES) entries) e
  = drop (length (entries ++ [e]) - LOG_BUFFER_MAX_LINES) (entries ++ [e]).
Proof.
  unfold emit. generalize LOG_BUFFER_MAX_LINES. intros m.
  rewrite !length_app, length_drop. simpl.
  destruct (Nat.ltb_spec m (length entries - (length entries - m) + 1)).
  - rewrite <- drop_app_le by lia. rewrite drop_drop. f_equal. lia.
  - replace (length entries - m)%nat with 0%nat by lia.
    replace (length entries + 1 - m)%nat with 0%nat by lia.
    reflexivity.
Qed.

(** X20. The debug log keeps the newest lines: after any number of
    records logged into an empty buffer, the buffer holds the last 500
    formatted entries in order (all of them when there are fewer), so it
    never grows beyond 500 lines. *)
Theorem log_buffer_keeps_latest (entries : list string) :
  foldl emit [] entries
  = drop (length entries - LOG_BUFFER_MAX_LINES) entries
  /\ (length (foldl emit [] entries) <= LOG_BUFFER_MAX_LINES)%nat.
Proof.
  assert (H : foldl emit [] entries
              = drop (length entries - LOG_BUFFER_MAX_LINES) entries).
  { induction entries as [|e entries IH] using rev_ind; [reflexivity|].
    rewrite foldl_snoc, IH. apply emit_latest. }
  split; [exact H|]. rewrite H, length_drop. lia.
Qed.

(** ** The pet table *)



(** X22. In a session that never uses automatic sync, runs do not
    overlap: at most one is in flight, and while it is, clicks on Manual
    Sync All and on Update GSheet Only do nothing. *)
Theorem manual_runs_never_overlap (events : list gui_event) :
  forallb manual_event events = true ->
  let g := gui_run events in
  (threads g <= 1)%nat
  /\ (threads g = 1%nat ->
      gui_step g ClickManualSyncAll = g
      /\ gui_step g ClickManualGsheetSync = g).
Proof.
  intros Hev g.
  destruct (manual_session_one_run events Hev) as (_ & _ & Hle & Hbusy & _).
  fold g in Hle, Hbusy. split; [exact Hle|].
  intros H1. destruct (Hbusy H1) as [Ha Hb]. simpl. rewrite Ha, Hb. auto.
Qed.

(** X23. When a snapshot lists an id several times, the last record
    wins: after the run the row carries the values of the last record
    with that id. *)
Theorem duplicate_ids_last_wins (w : World) (S1 S2 : list animal)
    (a : animal) (i : string) :
  snapshot_of w = (S1 ++ a :: S2)%list -> a_id a = Some i ->
  ~ appears_in i S2 ->
  exists p, db (sync_database w).2 !! i = Some p
    /\ name p = a_name a /\ species p = a_species a /\ breed p = a_breed a
    /\ sexSN p = a_sexSN a /\ age p = a_age a /\ location p = a_location a
    /\ detail_id p = a_detail_id a /\ photo_url p = a_photo_url a
    /\ archived p = false /\ last_seen p = sync_time_of w.
Proof.
  intros HS Ha Hi. exists (pet_row (sync_time_of w) a).
  split; [by apply (sync_database_last_wins w S1 S2 a i)|].
  repeat split; reflexivity.
Qed.

(** ** The further properties on the sample data *)

Lemma sync_database_counters_witness :
  exists c,
    (sync_database second_run_world).1 = Ok c
    /\ (inserted_count c + updated_count c
        = length (snapshot_of second_run_world))%nat
    /\ archived_count c
       = size (vanished (active_ids (snapshot_of second_run_world))
                 (db second_run_world)).
Proof.
  exists {| inserted_count := 0; updated_count := 1; archived_count := 1 |}.
  assert (H : (sync_database second_run_world).1
              = Ok {| inserted_count := 0; updated_count := 1;
                      archived_count := 1 |}) by (vm_compute; reflexivity).
  split; [exact H|].
  destruct (sync_database_counters second_run_world _ H) as (H1 & _ & _ & H4).
  split; [exact H1|exact H4].
Defined.

Lemma sync_database_archived_iff_absent_witness :
  exists p,
    snapshot_of second_run_world <> []
    /\ db (sync_database second_run_world).2 !! "A2" = Some p
    /\ (archived p = false <-> appears_in "A2" (snapshot_of second_run_world)).
Proof.
  assert (Hne : snapshot_of second_run_world <> []) by (vm_compute; discriminate).
  assert (exists p, db (sync_database second_run_world).2 !! "A2" = Some p)
    as [p Hp] by (eexists; vm_compute; reflexivity).
  exists p. split; [exact Hne|]. split; [exact Hp|].
  exact (sync_database_archived_iff_absent second_run_world "A2" p Hne Hp).
Defined.

Lemma fetch_animals_page_witness :
  remote rex_world (fetches rex_world) = Page [rex]
  /\ exists animals,
       (fetch_animals rex_world).1 = Ok animals
       /\ a_id <$> animals
          = filter (fun o => truthy o = true) (item_ids [rex]).
Proof.
  split; [reflexivity|].
  destruct (fetch_animals_page rex_world [rex]) as (animals & H1 & H2 & _);
    [reflexivity|].
  exists animals. split; [exact H1|exact H2].
Defined.

Lemma query_ignores_case_witness :
  select_pets "ZE" "CAT" "male" "All" mixed_case_pets
  = select_pets "ze" "cat" "MALE" "All" mixed_case_pets.
Proof.
  apply query_ignores_case;
    solve [reflexivity | discriminate].
Defined.


Lemma percent_search_matches_all_witness :
  "%%" <> "" /\ all_percent "%%" = true
  /\ fetch_filtered_pets_from_db "%%" "All" "All" "Active" second_run_world
     = fetch_filtered_pets_from_db "" "All" "All" "Active" second_run_world.
Proof.
  assert (H1 : "%%" <> "") by discriminate.
  assert (H2 : all_percent "%%" = true) by reflexivity.
  split; [exact H1|]. split; [exact H2|].
  exact (percent_search_matches_all "%%" "All" "All" "Active"
           second_run_world H1 H2).
Defined.



Lemma perform_sync_failure_touches_nothing_witness :
  (snapshot_of (started outage_world) = [] \/ Commits <> Commits)
  /\ db (_perform_sync_and_update_all Commits outage_world).2
     = db outage_world
  /\ sheet (_perform_sync_and_update_all Commits outage_world).2
     = sheet outage_world
  /\ (snapshot_of (started rex_world) = [] \/ RaisesSqlite3Error <> Commits)
  /\ db (_perform_sync_and_update_all RaisesSqlite3Error rex_world).2
     = db rex_world
  /\ config (_perform_sync_and_update_all RaisesSqlite3Error rex_world).2
     = config rex_world.
Proof.
  assert (H : snapshot_of (started outage_world) = [] \/ Commits <> Commits)
    by (left; reflexivity).
  assert (H' : snapshot_of (started rex_world) = []
               \/ RaisesSqlite3Error <> Commits) by (right; discriminate).
  destruct (perform_sync_failure_touches_nothing Commits outage_world H)
    as (H1 & H2 & _).
  destruct (perform_sync_failure_touches_nothing RaisesSqlite3Error
              rex_world H') as (H3 & _ & H4 & _).
  repeat split; assumption.
Defined.




Lemma manual_runs_never_overlap_witness :
  let events := [ClickManualSyncAll; ClickManualGsheetSync; ThreadFinishes;
                 ClickManualGsheetSync] in
  forallb manual_event events = true
  /\ (threads (gui_run events) <= 1)%nat
  /\ gui_step (gui_run events) ClickManualSyncAll = gui_run events.
Proof.
  intros events.
  assert (H : forallb manual_event events = true) by reflexivity.
  split; [exact H|].
  destruct (manual_runs_never_overlap events H) as [H1 H2].
  split; [exact H1|]. apply H2. reflexivity.
Defined.

Lemma duplicate_ids_last_wins_witness :
  snapshot_of duplicate_world
  = ([sample_animal "A1" "Rex"] ++ sample_animal "A1" "Rex II" :: [])%list
  /\ exists p, db (sync_database duplicate_world).2 !! "A1" = Some p
               /\ name p = Some "Rex II".
Proof.
  assert (H : snapshot_of duplicate_world
              = ([sample_animal "A1" "Rex"]
                 ++ sample_animal "A1" "Rex II" :: [])%list) by reflexivity.
  split; [exact H|].
  destruct (duplicate_ids_last_wins duplicate_world _ _ _ "A1" H)
    as (p & Hp & Hn & _).
  - reflexivity.
  - intros (b & Hb & _). by apply elem_of_nil in Hb.
  - exists p. split; [exact Hp|exact Hn].
Defined.
